(** * Lookup functions of package unbound (lookup.go)

    A shallow embedding of [LookupAddr], [LookupHost], [LookupIP],
    [lookupHelper], [LookupMX], [LookupSRV] and [LookupTXT], followed by the
    properties established about them.

    Conventions of the embedding:
    - a Go pointer [*Result] is an [option Result], [None] being [nil];
    - a Go [error] is an [option Err], [None] being [nil];
    - a Go slice that is only appended to is a [list]; the [nil] slice and the
      empty slice are both [[]];
    - a run-time panic (nil dereference, failed type assertion, index out of
      range) is the outcome [Panics];
    - the resolver handle [u *Unbound] is the function that answers a query;
      the queries issued through [Resolve] are recorded in a log. *)

From stdpp Require Import base numbers list strings pretty.
From Stdlib Require Import Permutation Sorted.

Local Open Scope string_scope.
Local Open Scope Z_scope.

(** ** DNS data (package dns) *)

(** Query types and the Internet class, with their values from the DNS
    registry; [uint16] in the source. *)
Definition TypeA : Z := 1.
Definition TypePTR : Z := 12.
Definition TypeMX : Z := 15.
Definition TypeTXT : Z := 16.
Definition TypeAAAA : Z := 28.
Definition TypeSRV : Z := 33.
Definition ClassINET : Z := 1.

(** [net.IP] is a byte slice. *)
Definition IP : Type := list Z.

(** A non-nil Go [error] value. *)
Inductive Err : Type := ErrMsg (msg : string).

Record RR_MX : Type := mkMX { Preference : Z; Mx : string }.

(** [Priority], [Weight] and [Port] are [uint16]; they are only compared. *)
Record RR_SRV : Type := mkSRV
  { Priority : Z; Weight : Z; Port : Z; Target : string }.

(** The interface [dns.RR] with the concrete record types the lookups
    assert.  Every record stands for a non-nil pointer to its struct; an
    interface value that wraps a nil pointer has no counterpart here. *)
Inductive RR : Type :=
| rr_A (a : IP)
| rr_AAAA (aaaa : IP)
| rr_PTR (ptr : string)
| rr_MX (mx : RR_MX)
| rr_TXT (txt : list string)
| rr_SRV (srv : RR_SRV)
| rr_CNAME (target : string).

(** The fields of [Result] that lookup.go reads. *)
Record Result : Type := mkResult { CanonName : string; Rr : list RR }.

Record Query : Type := mkQuery { qname : string; qtype : Z; qclass : Z }.

(** The resolver handle.  [Resolve] is defined outside lookup.go; what it
    answers to [u.Resolve(name, rrtype, rrclass)] is left open here. *)
Definition Unbound : Type := string → Z → Z → option Result * option Err.

#[global] Instance Err_eq_dec : EqDecision Err.
Proof. solve_decision. Defined.
#[global] Instance RR_MX_eq_dec : EqDecision RR_MX.
Proof. solve_decision. Defined.
#[global] Instance RR_SRV_eq_dec : EqDecision RR_SRV.
Proof. solve_decision. Defined.
#[global] Instance RR_eq_dec : EqDecision RR.
Proof. solve_decision. Defined.
#[global] Instance Result_eq_dec : EqDecision Result.
Proof. solve_decision. Defined.

(** ** Outcomes and the query-logging monad *)

Inductive outcome (T : Type) : Type :=
| Returns (v : T)
| Panics.
Arguments Returns {T} v.
Arguments Panics {T}.

Definition Go (T : Type) : Type := list Query → outcome T * list Query.

Definition ret {T} (v : T) : Go T := λ log, (Returns v, log).

Definition bind {T U} (m : Go T) (k : T → Go U) : Go U :=
  λ log, match m log with
         | (Returns v, log') => k v log'
         | (Panics, log') => (Panics, log')
         end.

Definition lift {T} (o : outcome T) : Go T := λ log, (o, log).

Notation "'let*' x ':=' m 'in' k" := (bind m (λ x, k))
  (at level 10, x name, m at level 100, k at level 200).
Notation "'let*' ' p ':=' m 'in' k" := (bind m (λ x, match x with p => k end))
  (at level 10, p pattern, m at level 100, k at level 200).

Definition obind {T U} (o : outcome T) (k : T → outcome U) : outcome U :=
  match o with Returns v => k v | Panics => Panics end.

(** [u.Resolve(name, rrtype, rrclass)]: the query goes to the log. *)
Definition Resolve (u : Unbound) (name : string) (rrtype rrclass : Z)
  : Go (option Result * option Err) :=
  λ log, (Returns (u name rrtype rrclass),
          (log ++ [mkQuery name rrtype rrclass])%list).

(** Reading a field through a pointer: [nil] panics. *)
Definition deref (r : option Result) : outcome Result :=
  match r with Some res => Returns res | None => Panics end.

(** Type assertions to a concrete record type ([rr.(T)] in the source): a
    record of another type panics. *)
Definition as_A (rr : RR) : outcome IP :=
  match rr with rr_A a => Returns a | _ => Panics end.
Definition as_AAAA (rr : RR) : outcome IP :=
  match rr with rr_AAAA a => Returns a | _ => Panics end.
Definition as_PTR (rr : RR) : outcome string :=
  match rr with rr_PTR p => Returns p | _ => Panics end.
Definition as_MX (rr : RR) : outcome RR_MX :=
  match rr with rr_MX m => Returns m | _ => Panics end.
Definition as_TXT (rr : RR) : outcome (list string) :=
  match rr with rr_TXT t => Returns t | _ => Panics end.
Definition as_SRV (rr : RR) : outcome RR_SRV :=
  match rr with rr_SRV s => Returns s | _ => Panics end.

(** [for _, rr := range rrs { acc = append(acc, f(rr)...) }] *)
Fixpoint range_append {T} (f : RR → outcome (list T)) (rrs : list RR)
    (acc : list T) : outcome (list T) :=
  match rrs with
  | [] => Returns acc
  | rr :: rest =>
      match f rr with
      | Returns xs => range_append f rest (acc ++ xs)%list
      | Panics => Panics
      end
  end.

(** [append(acc, f(rr))] for a single element. *)
Definition one {T} (f : RR → outcome T) (rr : RR) : outcome (list T) :=
  match f rr with Returns x => Returns [x] | Panics => Panics end.

(** ** The priority sort of LookupSRV (lines 117-124) *)

(** The body of the inner loop:
    [if srv[i].Priority > srv[j].Priority { srv[j], srv[i] = srv[i], srv[j] }].
    Both right-hand sides are read first, then [srv[j]] and [srv[i]] are
    written in that order.  [None] is an index out of range. *)
Definition swap_if_greater (i j : nat) (srv : list RR_SRV)
  : option (list RR_SRV) :=
  match srv !! i, srv !! j with
  | Some a, Some b =>
      if Priority a >? Priority b
      then Some (<[i := b]> (<[j := a]> srv))
      else Some srv
  | _, _ => None
  end.

(** [for j := ...; j < len(srv); j++ { ... }], entered with the current [j].
    [None] is an index out of range or exhausted fuel. *)
Fixpoint sort_inner (fuel : nat) (i j : nat) (srv : list RR_SRV)
  : option (list RR_SRV) :=
  match fuel with
  | O => None
  | S fuel' =>
      if decide (j < length srv)%nat then
        match swap_if_greater i j srv with
        | Some srv' => sort_inner fuel' i (S j) srv'
        | None => None
        end
      else Some srv
  end.

(** [for i := ...; i < len(srv); i++ { for j := i; ... }], entered with the
    current [i]. *)
Fixpoint sort_outer (fuel : nat) (i : nat) (srv : list RR_SRV)
  : option (list RR_SRV) :=
  match fuel with
  | O => None
  | S fuel' =>
      if decide (i < length srv)%nat then
        match sort_inner (S (length srv)) i i srv with
        | Some srv' => sort_outer fuel' (S i) srv'
        | None => None
        end
      else Some srv
  end.

Definition sortByPriority (srv : list RR_SRV) : option (list RR_SRV) :=
  sort_outer (S (length srv)) 0 srv.

(** ** The single-query lookups *)

(** The name LookupSRV asks the resolver for (lines 105-109). *)
Definition srvName (service proto name : string) : string :=
  if bool_decide (service = "") && bool_decide (proto = "")
  then name
  else "_" +:+ service +:+ "._" +:+ proto +:+ "." +:+ name.

Definition LookupSRV (u : Unbound) (service proto name : string)
  : Go (string * list RR_SRV * option Err) :=
  let* '(r, err) :=
    (if bool_decide (service = "") && bool_decide (proto = "")
     then Resolve u name TypeSRV ClassINET
     else Resolve u ("_" +:+ service +:+ "._" +:+ proto +:+ "." +:+ name)
            TypeSRV ClassINET) in
  match err with
  | Some e => ret ("", [], Some e)
  | None =>
      let* res := lift (deref r) in
      let* srv := lift (range_append (one as_SRV) (Rr res) []) in
      match sortByPriority srv with
      | Some sorted => ret ("", sorted, err)
      | None => lift Panics
      end
  end.

(** What LookupSRV returns for the answer [(r, err)] of its query
    (lines 110-125). *)
Definition SRV_answer (q : option Result * option Err)
  : outcome (string * list RR_SRV * option Err) :=
  match q with
  | (_, Some e) => Returns ("", [], Some e)
  | (r, None) =>
      obind (deref r) (λ res,
      obind (range_append (one as_SRV) (Rr res) []) (λ srv,
      match sortByPriority srv with
      | Some sorted => Returns ("", sorted, None)
      | None => Panics
      end))
  end.

Definition LookupMX (u : Unbound) (name : string)
  : Go (list RR_MX * option Err) :=
  let* '(r, err) := Resolve u name TypeMX ClassINET in
  match err with
  | Some e => ret ([], Some e)
  | None =>
      let* res := lift (deref r) in
      let* mx := lift (range_append (one as_MX) (Rr res) []) in
      ret (mx, err)
  end.

Definition LookupTXT (u : Unbound) (name : string)
  : Go (list string * option Err) :=
  let* '(r, err) := Resolve u name TypeTXT ClassINET in
  match err with
  | Some e => ret ([], Some e)
  | None =>
      let* res := lift (deref r) in
      let* txt := lift (range_append as_TXT (Rr res) []) in
      ret (txt, err)
  end.

(** LookupCNAME reads the canonical name before it looks at the error
    (lines 32-36). *)
Definition LookupCNAME (u : Unbound) (name : string)
  : Go (string * option Err) :=
  let* '(r, err) := Resolve u name TypeA ClassINET in
  let* res := lift (deref r) in
  ret (CanonName res, err).

Section External.

(** [dns.ReverseAddr] belongs to package dns. *)
Variable ReverseAddr : string → string * option Err.

Definition LookupAddr (u : Unbound) (addr : string)
  : Go (list string * option Err) :=
  let '(reverse, err) := ReverseAddr addr in
  match err with
  | Some e => ret ([], Some e)
  | None =>
      let* '(r, err) := Resolve u reverse TypePTR ClassINET in
      match err with
      | Some e => ret ([], Some e)
      | None =>
          let* res := lift (deref r) in
          let* name := lift (range_append (one as_PTR) (Rr res) []) in
          ret (name, err)
      end
  end.

End External.

(** ** LookupIP and lookupHelper: two asynchronous queries joined over channels *)

(** An unbuffered [chan *Result]: whether it is closed, how many times
    [close] was called on it, and the values that went through it. *)
Record Chan : Type := mkChan
  { closed : bool; close_calls : nat; delivered : list (option Result) }.

(** [make(chan *Result)] *)
Definition make_chan : Chan := mkChan false 0 [].

(** Control points of the goroutine that completes one query with
    [lookupHelper(c, e, r)]. *)
Inductive helper : Type :=
| HIdle                          (* the query is not dispatched yet *)
| HCall (e : option Err) (r : option Result)
                                 (* lookupHelper(c, e, r) is entered *)
| HSend (r : option Result)      (* at [c <- r], no receiver yet *)
| HDefer                         (* returning, [close(c)] is due *)
| HDone                          (* lookupHelper has returned *)
| HPanic.                        (* close of, or send on, a closed channel *)

(** Control points of LookupIP. *)
Inductive main : Type :=
| MDispatchA
| MDispatchAAAA
| MRecvA
| MRecvAAAA (ra : option Result)
| MRange (ra raaaa : option Result)
| MDone (out : outcome (list IP * option Err)).

(** What [lookupHelper] does on its own: the test [e != nil], and the
    deferred [close(c)].  At [c <- r] it waits for the receiver.  The
    assertion of the context to a channel always holds: LookupIP hands
    the channel over as the context. *)
Definition lookupHelper (h : helper) (c : Chan) : option (helper * Chan) :=
  match h with
  | HCall (Some _) _ => Some (HDefer, c)
  | HCall None r => Some (HSend r, c)
  | HSend _ => if closed c then Some (HPanic, c) else None
  | HDefer =>
      if closed c
      then Some (HPanic, mkChan true (S (close_calls c)) (delivered c))
      else Some (HDone, mkChan true (S (close_calls c)) (delivered c))
  | HIdle | HDone | HPanic => None
  end.

(** [<-c] in LookupIP: a closed channel yields [nil]; an open one yields the
    value of a sender waiting at [c <- r], which then goes on; otherwise the
    receiver waits. *)
Definition receive (h : helper) (c : Chan)
  : option (option Result * helper * Chan) :=
  if closed c then Some (None, h, c)
  else match h with
       | HSend r =>
           Some (r, HDefer,
                 mkChan false (close_calls c) (delivered c ++ [r])%list)
       | _ => None
       end.

(** Modelled from the spec: [ResolveAsync], which is not in lookup.go.  The
    resolver runs the query on its own thread of control and invokes the
    callback exactly once with the context, the error and the result of the
    query. *)
Definition ResolveAsync (u : Unbound) (name : string) (rrtype rrclass : Z)
  : helper :=
  let '(r, e) := u name rrtype rrclass in HCall e r.

(** The two range loops and the return of LookupIP (lines 63-70); [err] is
    never assigned. *)
Definition LookupIP_range (ra raaaa : option Result)
  : outcome (list IP * option Err) :=
  obind (deref ra) (λ a,
  obind (range_append (one as_A) (Rr a) []) (λ addrs,
  obind (deref raaaa) (λ aaaa,
  obind (range_append (one as_AAAA) (Rr aaaa) addrs) (λ addrs,
  Returns (addrs, None))))).

Record State : Type := mkState
  { pc : main; hA : helper; hAAAA : helper; ca : Chan; caaaa : Chan }.

Inductive tid : Type := TMain | TA | TAAAA.

(** LookupIP is entered: both channels are made. *)
Definition LookupIP_start : State :=
  mkState MDispatchA HIdle HIdle make_chan make_chan.

(** One step of LookupIP itself. *)
Definition LookupIP_step (u : Unbound) (host : string) (s : State)
  : option State :=
  match pc s with
  | MDispatchA =>
      Some (mkState MDispatchAAAA (ResolveAsync u host TypeA ClassINET)
              (hAAAA s) (ca s) (caaaa s))
  | MDispatchAAAA =>
      Some (mkState MRecvA (hA s) (ResolveAsync u host TypeAAAA ClassINET)
              (ca s) (caaaa s))
  | MRecvA =>
      match receive (hA s) (ca s) with
      | Some (ra, h, c) => Some (mkState (MRecvAAAA ra) h (hAAAA s) c (caaaa s))
      | None => None
      end
  | MRecvAAAA ra =>
      match receive (hAAAA s) (caaaa s) with
      | Some (raaaa, h, c) => Some (mkState (MRange ra raaaa) (hA s) h (ca s) c)
      | None => None
      end
  | MRange ra raaaa =>
      Some (mkState (MDone (LookupIP_range ra raaaa))
              (hA s) (hAAAA s) (ca s) (caaaa s))
  | MDone _ => None
  end.

(** One step of the thread [t]; [None] when it waits or has finished. *)
Definition step (u : Unbound) (host : string) (t : tid) (s : State)
  : option State :=
  match t with
  | TMain => LookupIP_step u host s
  | TA =>
      match lookupHelper (hA s) (ca s) with
      | Some (h, c) => Some (mkState (pc s) h (hAAAA s) c (caaaa s))
      | None => None
      end
  | TAAAA =>
      match lookupHelper (hAAAA s) (caaaa s) with
      | Some (h, c) => Some (mkState (pc s) (hA s) h (ca s) c)
      | None => None
      end
  end.

(** An execution: the threads of the schedule step one after the other;
    [None] when a scheduled thread cannot step. *)
Fixpoint exec (u : Unbound) (host : string) (sched : list tid) (s : State)
  : option State :=
  match sched with
  | [] => Some s
  | t :: rest =>
      match step u host t s with
      | Some s' => exec u host rest s'
      | None => None
      end
  end.

(** No thread can step. *)
Definition quiescent (u : Unbound) (host : string) (s : State) : Prop :=
  ∀ t, step u host t s = None.

(** What LookupIP has returned after the execution [sched], if it has. *)
Definition LookupIP (u : Unbound) (host : string) (sched : list tid)
  : option (outcome (list IP * option Err)) :=
  match exec u host sched LookupIP_start with
  | Some s => match pc s with MDone out => Some out | _ => None end
  | None => None
  end.

Section HostStrings.

Variable IP_String : IP → string.

Definition LookupHost (u : Unbound) (host : string) (sched : list tid)
  : option (outcome (list string * option Err)) :=
  match LookupIP u host sched with
  | None => None
  | Some Panics => Some Panics
  | Some (Returns (ipaddrs, Some e)) => Some (Returns ([], Some e))
  | Some (Returns (ipaddrs, None)) =>
      Some (Returns (map IP_String ipaddrs, None))
  end.

End HostStrings.

(** ** Vocabulary of the properties *)

Definition prio_le (a b : RR_SRV) : Prop := Priority a ≤ Priority b.

(** Every record before position [i] is at most every record at or after its
    own position. *)
Definition prefix_sorted (i : nat) (srv : list RR_SRV) : Prop :=
  ∀ a b x y, (a < i)%nat → (a ≤ b)%nat →
    srv !! a = Some x → srv !! b = Some y → prio_le x y.

(** What [<-c] yields for a query answered with [q]: the result, or [nil]
    when the resolver reported an error. *)
Definition got (q : option Result * option Err) : option Result :=
  match q with (r, None) => r | (_, Some _) => None end.

(** What goes through the channel of a query answered with [q]. *)
Definition sent (q : option Result * option Err) : list (option Result) :=
  match q with (r, None) => [r] | (_, Some _) => [] end.

(** Where LookupIP stands with respect to one of its two queries. *)
Inductive phase : Type := NotDispatched | Waiting | Received.

Definition phaseA (m : main) : phase :=
  match m with
  | MDispatchA => NotDispatched
  | MDispatchAAAA | MRecvA => Waiting
  | MRecvAAAA _ | MRange _ _ | MDone _ => Received
  end.

Definition phaseAAAA (m : main) : phase :=
  match m with
  | MDispatchA | MDispatchAAAA => NotDispatched
  | MRecvA | MRecvAAAA _ => Waiting
  | MRange _ _ | MDone _ => Received
  end.

(** The states one query, its helper and its channel go through. *)
Definition chan_inv (q : option Result * option Err) (ph : phase)
    (h : helper) (c : Chan) : Prop :=
  match ph, h with
  | NotDispatched, HIdle => c = make_chan
  | Waiting, HCall e r => q = (r, e) ∧ c = make_chan
  | Waiting, HSend r => q = (r, None) ∧ c = make_chan
  | Waiting, HDefer => snd q ≠ None ∧ c = make_chan
  | Waiting, HDone => snd q ≠ None ∧ c = mkChan true 1 []
  | Received, HDefer => snd q = None ∧ c = mkChan false 0 (sent q)
  | Received, HDone => c = mkChan true 1 (sent q)
  | _, _ => False
  end.

Definition main_inv (qa qaaaa : option Result * option Err) (m : main) : Prop :=
  match m with
  | MDispatchA | MDispatchAAAA | MRecvA => True
  | MRecvAAAA ra => ra = got qa
  | MRange ra raaaa => ra = got qa ∧ raaaa = got qaaaa
  | MDone out => out = LookupIP_range (got qa) (got qaaaa)
  end.

(** What holds of every state LookupIP reaches for the host [host]. *)
Definition Inv (u : Unbound) (host : string) (s : State) : Prop :=
  chan_inv (u host TypeA ClassINET) (phaseA (pc s)) (hA s) (ca s)
  ∧ chan_inv (u host TypeAAAA ClassINET) (phaseAAAA (pc s)) (hAAAA s) (caaaa s)
  ∧ main_inv (u host TypeA ClassINET) (u host TypeAAAA ClassINET) (pc s).

(** The life of the channel [c] handed to the helper [h] of a query answered
    with [q]: no close of, or send on, a closed channel; open and never
    closed until lookupHelper has returned; from then on closed by one call
    of [close], after the result went through it, or with nothing sent when
    the query failed. *)
Definition closed_exactly_once (q : option Result * option Err)
    (h : helper) (c : Chan) : Prop :=
  h ≠ HPanic
  ∧ (h ≠ HDone → closed c = false ∧ close_calls c = 0%nat)
  ∧ (h = HDone →
       c = mkChan true 1
             (match q with (r, None) => [r] | (_, Some _) => [] end)).

(** The answer [q] to a query is an error, or a result whose records all
    pass the type assertion [f]. *)
Definition answer_typed {T} (f : RR → outcome T)
    (q : option Result * option Err) : Prop :=
  match q with
  | (_, Some _) => True
  | (Some res, None) => Forall (λ rr, ∃ x, f rr = Returns x) (Rr res)
  | (None, None) => False
  end.

(** The records of priority [p], in the order of the list. *)
Definition band (p : Z) (srv : list RR_SRV) : list RR_SRV :=
  filter (λ r, Priority r = p) srv.

(** Of two records, the one the inner loop leaves at position [i]: the
    second when its priority is strictly smaller, the first otherwise. *)
Definition pick (m y : RR_SRV) : RR_SRV :=
  if Priority m >? Priority y then y else m.

(** One pass of the inner loop, on lists: [x] is carried along [rest]; a
    record of strictly smaller priority takes its place and is carried on,
    and [x] stays where that record was.  The result is the record carried
    to the end and what is left of [rest]. *)
Fixpoint sweep (x : RR_SRV) (rest : list RR_SRV) : RR_SRV * list RR_SRV :=
  match rest with
  | [] => (x, [])
  | y :: t =>
      if Priority x >? Priority y
      then let '(m, t') := sweep y t in (m, x :: t')
      else let '(m, t') := sweep x t in (m, y :: t')
  end.

(** The arrangement of a list of records after [n] passes, each putting
    the record it carried to the end in front of what the next works on. *)
Fixpoint exchange_order_fuel (n : nat) (srv : list RR_SRV) : list RR_SRV :=
  match n, srv with
  | S n', x :: rest =>
      let '(m, rest') := sweep x rest in m :: exchange_order_fuel n' rest'
  | _, _ => srv
  end.

Definition exchange_order (srv : list RR_SRV) : list RR_SRV :=
  exchange_order_fuel (length srv) srv.

(** How far the three threads are from their ends. *)
Definition helper_left (h : helper) : nat :=
  match h with
  | HIdle => 4 | HCall _ _ => 3 | HSend _ => 2 | HDefer => 1
  | HDone | HPanic => 0
  end.

Definition main_left (m : main) : nat :=
  match m with
  | MDispatchA => 5 | MDispatchAAAA => 4 | MRecvA => 3 | MRecvAAAA _ => 2
  | MRange _ _ => 1 | MDone _ => 0
  end.

Definition steps_left (s : State) : nat :=
  (main_left (pc s) + helper_left (hA s) + helper_left (hAAAA s))%nat.

(** ** Sample resolvers used in the examples *)

Definition srv_a : RR_SRV := mkSRV 2 0 389 "a.example.com.".
Definition srv_b : RR_SRV := mkSRV 2 100 389 "b.example.com.".
Definition srv_c : RR_SRV := mkSRV 1 10 389 "c.example.com.".

Definition u_srv_abc : Unbound := λ name t c,
  if bool_decide (name = "_ldap._tcp.example.com")
  then (Some (mkResult "canon.example.com."
                [rr_SRV srv_a; rr_SRV srv_b; rr_SRV srv_c]), None)
  else (Some (mkResult "" []), Some (ErrMsg "servfail")).

Definition ip4 : IP := [192; 0; 2; 1].
Definition ip6 : IP := [32; 1; 13; 184; 0; 0; 0; 0; 0; 0; 0; 0; 0; 0; 0; 1].

Definition u_both : Unbound := λ name t c,
  if bool_decide (t = TypeA) then (Some (mkResult "" [rr_A ip4]), None)
  else (Some (mkResult "" [rr_AAAA ip6]), None).

Definition u_only_aaaa : Unbound := λ name t c,
  if bool_decide (t = TypeA) then (None, Some (ErrMsg "servfail"))
  else (Some (mkResult "" [rr_AAAA ip6]), None).

Definition sched_seq : list tid :=
  [TMain; TMain; TA; TAAAA; TMain; TMain; TMain; TA; TAAAA].

Definition u_neither : Unbound := λ name t c,
  (None, Some (ErrMsg "servfail")).

(** Two records of one priority, with any weights. *)
Definition u_pair (p w1 w2 : Z) : Unbound := λ name t c,
  (Some (mkResult "" [rr_SRV (mkSRV p w1 80 "first.example.com.");
                      rr_SRV (mkSRV p w2 80 "second.example.com.")]), None).

(** The same answer as [u_srv_abc] for the LDAP service only. *)
Definition u_srv_abc' : Unbound := λ name t c,
  if bool_decide (name = "_ldap._tcp.example.com")
  then (Some (mkResult "canon.example.com."
                [rr_SRV srv_a; rr_SRV srv_b; rr_SRV srv_c]), None)
  else (None, None).

(** A resolver that fails every query, and hands back records with the
    error. *)
Definition u_fail : Unbound := λ name t c,
  (Some (mkResult "" [rr_PTR "host.example.com."; rr_MX (mkMX 10 "mx.example.com.");
                      rr_TXT ["v=spf1"]]),
   Some (ErrMsg "servfail")).

(** A resolver that finds no records, which is not an error. *)
Definition u_nodata : Unbound := λ name t c, (Some (mkResult "" []), None).

Definition u_ptr : Unbound := λ name t c,
  (Some (mkResult "" (rr_PTR <$> ["host.example.com."; "alias.example.com."])), None).

(** A stand-in for [dns.ReverseAddr] that knows one address. *)
Definition reverse_sample (addr : string) : string * option Err :=
  if bool_decide (addr = "192.0.2.1")
  then ("1.2.0.192.in-addr.arpa.", None)
  else ("", Some (ErrMsg "unrecognized address")).

(** A stand-in for [net.IP.String]: the bytes in decimal, with dots. *)
Definition ip_text (ip : IP) : string :=
  String.concat "." (pretty <$> ip).

Definition state_both_done : State :=
  mkState (MDone (Returns ([ip4; ip6], None))) HDone HDone
    (mkChan true 1 [Some (mkResult "" [rr_A ip4])])
    (mkChan true 1 [Some (mkResult "" [rr_AAAA ip6])]).

Definition sched_a_fails : list tid :=
  [TMain; TMain; TA; TA; TAAAA; TMain; TMain; TMain; TAAAA].

Definition sched_both_fail : list tid :=
  [TMain; TMain; TA; TA; TAAAA; TAAAA; TMain; TMain; TMain].

Definition u_txt : Unbound := λ name t c,
  (Some (mkResult "" (rr_TXT <$> [["a"; "b"]; []; ["c"]])), None).

(** Mail exchangers handed back with the larger preference first. *)
Definition u_mx : Unbound := λ name t c,
  (Some (mkResult "" (rr_MX <$> [mkMX 20 "backup.example.com.";
                                 mkMX 10 "mail.example.com."])), None).

(** A canonical name handed back together with an error. *)
Definition u_cname_err : Unbound := λ name t c,
  (Some (mkResult "www.example.net." []), Some (ErrMsg "bogus")).

Definition srv_d : RR_SRV := mkSRV 1 0 636 "d.example.com.".

(** A response already in ascending order of priority. *)
Definition u_srv_sorted : Unbound := λ name t c,
  (Some (mkResult "" (rr_SRV <$> [srv_c; srv_d; srv_a; srv_b])), None).

(** The answer of [u_srv_abc] to every query. *)
Definition u_srv_any : Unbound := λ name t c,
  (Some (mkResult "" (rr_SRV <$> [srv_a; srv_b; srv_c])), None).

(** The same records with every weight set to 1. *)
Definition flat_weight (r : RR_SRV) : RR_SRV :=
  mkSRV (Priority r) 1 (Port r) (Target r).

Definition u_srv_flat : Unbound := λ name t c,
  (Some (mkResult "" (rr_SRV <$> (flat_weight <$> [srv_a; srv_b; srv_c]))), None).

Definition u_srv_min_later : Unbound := λ name t c,
  (Some (mkResult "" (rr_SRV <$> ([srv_a; srv_b] ++ srv_c :: [srv_d])%list)), None).

(** Both queries are dispatched and the AAAA helper waits at its send. *)
Definition state_aaaa_waits : State :=
  mkState MRecvA (HCall None (Some (mkResult "" [rr_A ip4])))
    (HSend (Some (mkResult "" [rr_AAAA ip6]))) make_chan make_chan.

(** Every answer starts with a CNAME record, as for a name that is an
    alias. *)
Definition u_cname_chain : Unbound := λ name t c,
  (Some (mkResult "www.example.net."
           [rr_CNAME "www.example.net."; rr_A ip4]), None).

Definition sched_aaaa_first : list tid :=
  [TMain; TMain; TAAAA; TA; TMain; TA; TMain; TAAAA; TMain].

(** * Properties *)

(** ** The samples, run *)

Example LookupSRV_abc :
  LookupSRV u_srv_abc "ldap" "tcp" "example.com" [] =
  (Returns ("", [srv_c; srv_b; srv_a], None),
   [mkQuery "_ldap._tcp.example.com" 33 1]).
Proof. reflexivity. Qed.

(** LookupIP can return while both helpers still have their deferred
    [close] ahead of them. *)
Example LookupIP_returns_before_close :
  exec u_both "example.com" [TMain; TMain; TA; TAAAA; TMain; TMain; TMain]
    LookupIP_start
  = Some (mkState (MDone (Returns ([ip4; ip6], None))) HDefer HDefer
            (mkChan false 0 [Some (mkResult "" [rr_A ip4])])
            (mkChan false 0 [Some (mkResult "" [rr_AAAA ip6])])).
Proof. reflexivity. Qed.

Example LookupTXT_flattens :
  fst (LookupTXT (λ _ _ _, (Some (mkResult "" [rr_TXT ["a"; "b"]; rr_TXT ["c"]]),
                            None)) "example.com" [])
  = Returns (["a"; "b"; "c"], None).
Proof. reflexivity. Qed.

Example LookupIP_both :
  LookupIP u_both "example.com" sched_seq = Some (Returns ([ip4; ip6], None)).
Proof. reflexivity. Qed.

(** ** The priority sort *)

Lemma swap_if_greater_eq i j srv a b :
  srv !! i = Some a → srv !! j = Some b →
  swap_if_greater i j srv =
  Some (if Priority a >? Priority b then <[i := b]> (<[j := a]> srv) else srv).
Proof.
  intros Hi Hj. unfold swap_if_greater. rewrite Hi, Hj.
  by destruct (Priority a >? Priority b).
Qed.

Section Swap.

Variables (srv : list RR_SRV) (i j : nat) (a b : RR_SRV).
Hypothesis Hi : srv !! i = Some a.
Hypothesis Hj : srv !! j = Some b.

Let swapped : list RR_SRV := <[i := b]> (<[j := a]> srv).

Lemma swapped_length : length swapped = length srv.
Proof. unfold swapped. by rewrite !length_insert. Qed.

Lemma swapped_perm : swapped ≡ₚ srv.
Proof. unfold swapped. by apply Permutation_insert_swap. Qed.

Lemma swapped_at_i : swapped !! i = Some b.
Proof.
  unfold swapped. apply list_lookup_insert_eq.
  rewrite length_insert. by eapply lookup_lt_Some.
Qed.

Lemma swapped_at_j : i ≠ j → swapped !! j = Some a.
Proof.
  intros Hne. unfold swapped. rewrite list_lookup_insert_ne by done.
  apply list_lookup_insert_eq. by eapply lookup_lt_Some.
Qed.

Lemma swapped_elsewhere k : k ≠ i → k ≠ j → swapped !! k = srv !! k.
Proof.
  intros Hki Hkj. unfold swapped.
  by rewrite !list_lookup_insert_ne by done.
Qed.

Lemma swapped_origin k y :
  (i ≤ j)%nat → (i ≤ k)%nat → swapped !! k = Some y →
  ∃ k', (i ≤ k')%nat ∧ srv !! k' = Some y.
Proof.
  intros Hij Hik Hk.
  destruct (decide (k = i)) as [->|Hki].
  - rewrite swapped_at_i in Hk. exists j. split; [done | congruence].
  - destruct (decide (k = j)) as [->|Hkj].
    + rewrite swapped_at_j in Hk by done. exists i. split; [done | congruence].
    + rewrite swapped_elsewhere in Hk by done. eauto.
Qed.

End Swap.

(** The inner loop, entered at [j] with [srv[i]] minimal among the positions
    [i .. j-1], ends with [srv[i]] minimal among all positions from [i] on; it
    only exchanges records at positions from [i] on. *)
Lemma sort_inner_spec fuel : ∀ i j srv,
  (i ≤ j)%nat → (j ≤ length srv)%nat → (i < length srv)%nat →
  (length srv - j < fuel)%nat →
  (∀ k x y, (i ≤ k < j)%nat →
     srv !! i = Some x → srv !! k = Some y → prio_le x y) →
  ∃ srv', sort_inner fuel i j srv = Some srv'
    ∧ length srv' = length srv
    ∧ srv' ≡ₚ srv
    ∧ (∀ k, (k < i)%nat → srv' !! k = srv !! k)
    ∧ (∀ k y, (i ≤ k)%nat → srv' !! k = Some y →
         ∃ k', (i ≤ k')%nat ∧ srv !! k' = Some y)
    ∧ (∀ k x y, (i ≤ k)%nat →
         srv' !! i = Some x → srv' !! k = Some y → prio_le x y).
Proof.
  induction fuel as [|fuel IH]; intros i j srv Hij Hjn Hin Hfuel Hmin; [lia|].
  simpl. destruct (decide (j < length srv)%nat) as [Hlt|Hge].
  - destruct (lookup_lt_is_Some_2 srv i Hin) as [a Ha].
    destruct (lookup_lt_is_Some_2 srv j Hlt) as [b Hb].
    rewrite (swap_if_greater_eq i j srv a b Ha Hb).
    destruct (Priority a >? Priority b) eqn:Hcmp.
    + (* the records at [i] and [j] are exchanged *)
      apply Z.gtb_lt in Hcmp.
      assert (i ≠ j) as Hne.
      { intros ->. rewrite Ha in Hb. injection Hb as ->. lia. }
      pose proof (swapped_length srv i j a b) as Hlen.
      destruct (IH i (S j) (<[i := b]> (<[j := a]> srv)))
        as (srv' & Hrun & Hlen' & Hperm & Hlow & Horig & Hfin).
      * lia.
      * rewrite Hlen. lia.
      * rewrite Hlen. lia.
      * rewrite Hlen. lia.
      * intros k x y Hk Hx Hy.
        rewrite (swapped_at_i srv i j a b Ha) in Hx. injection Hx as <-.
        destruct (decide (k = i)) as [->|Hki].
        { rewrite (swapped_at_i srv i j a b Ha) in Hy. injection Hy as <-.
          unfold prio_le. lia. }
        destruct (decide (k = j)) as [->|Hkj].
        { rewrite (swapped_at_j srv i j a b Hb Hne) in Hy. injection Hy as <-.
          unfold prio_le. lia. }
        rewrite swapped_elsewhere in Hy by done.
        assert (prio_le a y) by (apply (Hmin k); [lia|done..]).
        unfold prio_le in *. lia.
      * exists srv'. split; [done|]. split; [lia|].
        split; [by rewrite Hperm, (swapped_perm srv i j a b)|].
        split.
        { intros k Hk. rewrite Hlow by done.
          apply swapped_elsewhere; lia. }
        split; [|done].
        intros k y Hk Hy. destruct (Horig k y Hk Hy) as (k' & Hk' & Hy').
        by apply (swapped_origin srv i j a b Ha Hb k' y).
    + (* nothing is exchanged *)
      assert (Priority a ≤ Priority b) as Hle.
      { destruct (Z.gtb_spec (Priority a) (Priority b)); [done | lia]. }
      destruct (IH i (S j) srv) as (srv' & Hrun & Hrest); [lia..| |by eauto].
      intros k x y Hk Hx Hy.
      destruct (decide (k = j)) as [->|Hkj].
      * rewrite Ha in Hx. rewrite Hb in Hy.
        injection Hx as <-. injection Hy as <-. done.
      * apply (Hmin k); [lia|done..].
  - exists srv. split; [done|]. split; [done|]. split; [done|].
    split; [done|]. split; [by eauto|].
    intros k x y Hk Hx Hy. apply (Hmin k); [|done..].
    split; [done|]. apply lookup_lt_Some in Hy. lia.
Qed.

(** The outer loop, entered at [i] with the prefix before [i] in place, ends
    with the whole list in place. *)
Lemma sort_outer_spec fuel : ∀ i srv,
  (i ≤ length srv)%nat → (length srv - i < fuel)%nat →
  prefix_sorted i srv →
  ∃ srv', sort_outer fuel i srv = Some srv'
    ∧ srv' ≡ₚ srv
    ∧ prefix_sorted (length srv') srv'.
Proof.
  induction fuel as [|fuel IH]; intros i srv Hin Hfuel Hpre; [lia|].
  cbn [sort_outer]. destruct (decide (i < length srv)%nat) as [Hlt|Hge].
  - destruct (sort_inner_spec (S (length srv)) i i srv)
      as (srv1 & Hrun & Hlen & Hperm & Hlow & Horig & Hmin);
      [lia..| |].
    { intros k x y Hk. lia. }
    rewrite Hrun.
    destruct (IH (S i) srv1) as (srv' & Hrun' & Hperm' & Hsorted).
    + lia.
    + lia.
    + intros a b x y Ha Hab Hx Hy.
      destruct (decide (a = i)) as [->|Hai].
      * by apply (Hmin b).
      * rewrite Hlow in Hx by lia.
        destruct (decide (b < i)%nat) as [Hbi|Hbi].
        { rewrite Hlow in Hy by lia. apply (Hpre a b); first [lia | done]. }
        destruct (Horig b y) as (b' & Hb' & Hy'); [lia|done|].
        apply (Hpre a b'); first [lia | done].
    + exists srv'. split; [done|]. split; [|done].
      by rewrite Hperm', Hperm.
  - exists srv. split; [done|]. split; [done|].
    by replace (length srv) with i by lia.
Qed.

Lemma prefix_sorted_StronglySorted srv :
  prefix_sorted (length srv) srv → StronglySorted prio_le srv.
Proof.
  induction srv as [|x srv IH]; intros Hpre; [constructor|].
  constructor.
  - apply IH. intros a b u v Ha Hab Hu Hv.
    apply (Hpre (S a) (S b)); simpl in *; [lia|lia|done|done].
  - apply Forall_forall. intros y Hy.
    apply list_elem_of_lookup in Hy as [k Hk].
    apply (Hpre 0%nat (S k)); simpl; [lia|lia|done|done].
Qed.

(** The sort always completes, and its result is the input rearranged in
    ascending order of priority. *)
Lemma sortByPriority_spec srv :
  ∃ sorted, sortByPriority srv = Some sorted
    ∧ sorted ≡ₚ srv
    ∧ StronglySorted prio_le sorted.
Proof.
  destruct (sort_outer_spec (S (length srv)) 0 srv)
    as (sorted & Hrun & Hperm & Hsorted); [lia..| |].
  { intros a b x y Ha. lia. }
  exists sorted. split; [done|]. split; [done|].
  by apply prefix_sorted_StronglySorted.
Qed.

(** ** The record loops *)

Lemma range_append_one_fmap {T} (f : RR → outcome T) (mk : T → RR) :
  (∀ x, f (mk x) = Returns x) →
  ∀ xs acc, range_append (one f) (mk <$> xs) acc = Returns (acc ++ xs)%list.
Proof.
  intros Hf xs. induction xs as [|x xs IH]; intros acc; simpl.
  - by rewrite app_nil_r.
  - unfold one at 1. rewrite Hf, IH. by rewrite <- app_assoc.
Qed.

Lemma range_append_one_Returns {T} (f : RR → outcome T) rrs :
  Forall (λ rr, ∃ x, f rr = Returns x) rrs →
  ∀ acc, ∃ out, range_append (one f) rrs acc = Returns out.
Proof.
  induction 1 as [|rr rrs [x Hx] _ IH]; intros acc; simpl; [by eauto|].
  unfold one at 1. rewrite Hx. apply IH.
Qed.

(** ** The channel protocol of LookupIP *)

Section Protocol.

Variables (u : Unbound) (host : string).

Let qa := u host TypeA ClassINET.
Let qaaaa := u host TypeAAAA ClassINET.

Lemma Inv_start : Inv u host LookupIP_start.
Proof. by repeat split. Qed.

Lemma ResolveAsync_inv name rrtype rrclass :
  chan_inv (u name rrtype rrclass) Waiting
    (ResolveAsync u name rrtype rrclass) make_chan.
Proof. unfold ResolveAsync. by destruct (u name rrtype rrclass). Qed.

(** A step of lookupHelper keeps its channel in the protocol. *)
Lemma lookupHelper_inv q ph h c h' c' :
  chan_inv q ph h c → lookupHelper h c = Some (h', c') →
  chan_inv q ph h' c'.
Proof.
  destruct q as [r e], ph, h as [|[e0|] r0|r0| | |]; simpl;
    try done; intros HI Hs; destruct_and?; simplify_eq/=; done.
Qed.

(** A receive that goes through yields [got q] and leaves the channel in
    the protocol. *)
Lemma receive_inv q h c v h' c' :
  chan_inv q Waiting h c → receive h c = Some (v, h', c') →
  v = got q ∧ chan_inv q Received h' c'.
Proof.
  destruct q as [r e], h as [|e0 r0|r0| | |]; simpl; try done;
    intros HI Hs; destruct_and?; simplify_eq/=;
    unfold receive in Hs; simplify_eq/=; try done.
  by destruct e.
Qed.

Lemma step_inv t s s' :
  Inv u host s → step u host t s = Some s' → Inv u host s'.
Proof.
  intros (HA & HAAAA & HM) Hstep. destruct s as [m ha haaaa c1 c2].
  destruct t; simpl in *.
  - (* LookupIP *)
    unfold LookupIP_step in Hstep; simpl in *.
    destruct m as [| | |ra|ra raaaa|out]; simpl in *.
    + injection Hstep as <-. destruct ha; try done. subst c1.
      repeat split; [apply ResolveAsync_inv | done].
    + injection Hstep as <-. destruct haaaa; try done. subst c2.
      repeat split; [done | apply ResolveAsync_inv].
    + destruct (receive ha c1) as [[[v h] c]|] eqn:Hr; [|done].
      injection Hstep as <-.
      destruct (receive_inv _ _ _ _ _ _ HA Hr) as [-> HA'].
      by repeat split.
    + destruct (receive haaaa c2) as [[[v h] c]|] eqn:Hr; [|done].
      injection Hstep as <-.
      destruct (receive_inv _ _ _ _ _ _ HAAAA Hr) as [-> HAAAA'].
      by repeat split.
    + injection Hstep as <-. destruct HM as [-> ->]. by repeat split.
    + done.
  - destruct (lookupHelper ha c1) as [[h c]|] eqn:Hl; [|done].
    injection Hstep as <-.
    repeat split; simpl; [by eapply lookupHelper_inv | done..].
  - destruct (lookupHelper haaaa c2) as [[h c]|] eqn:Hl; [|done].
    injection Hstep as <-.
    repeat split; simpl; [done | by eapply lookupHelper_inv | done].
Qed.

Lemma exec_inv sched : ∀ s s',
  Inv u host s → exec u host sched s = Some s' → Inv u host s'.
Proof.
  induction sched as [|t sched IH]; intros s s' HI Hex; simpl in Hex.
  - by injection Hex as <-.
  - destruct (step u host t s) as [s1|] eqn:Hs; [|done].
    eapply IH; [|done]. by eapply step_inv.
Qed.

Lemma ResolveAsync_left name rrtype rrclass :
  helper_left (ResolveAsync u name rrtype rrclass) = 3%nat.
Proof. unfold ResolveAsync. by destruct (u name rrtype rrclass). Qed.

(** In the protocol, every step brings the three threads closer to their
    ends. *)
Lemma step_steps_left t s s' :
  Inv u host s → step u host t s = Some s' →
  (steps_left s' < steps_left s)%nat.
Proof.
  intros (HA & HAAAA & _). destruct s as [m ha haaaa c1 c2].
  unfold steps_left. destruct t; simpl in *.
  - unfold LookupIP_step; simpl.
    destruct m as [| | |ra|ra raaaa|out]; simpl in *; try done.
    + intros [= <-]; simpl. destruct ha; try done.
      rewrite ResolveAsync_left; simpl; lia.
    + intros [= <-]; simpl. destruct haaaa; try done.
      rewrite ResolveAsync_left; simpl; lia.
    + unfold receive. destruct (closed c1).
      * intros [= <-]; simpl; lia.
      * destruct ha; try done. intros [= <-]; simpl; lia.
    + unfold receive. destruct (closed c2).
      * intros [= <-]; simpl; lia.
      * destruct haaaa; try done. intros [= <-]; simpl; lia.
    + intros [= <-]; simpl; lia.
  - destruct ha as [|[e0|] r0|r0| | |]; simpl; try done;
      try destruct (closed c1); try done; intros [= <-]; simpl; lia.
  - destruct haaaa as [|[e0|] r0|r0| | |]; simpl; try done;
      try destruct (closed c2); try done; intros [= <-]; simpl; lia.
Qed.

Lemma exec_steps_left sched : ∀ s s',
  Inv u host s → exec u host sched s = Some s' →
  (length sched + steps_left s' ≤ steps_left s)%nat.
Proof.
  induction sched as [|t sched IH]; intros s s' HI Hex; simpl in *.
  - injection Hex as <-. lia.
  - destruct (step u host t s) as [s1|] eqn:Hs; [|done].
    apply IH in Hex; [|by eapply step_inv].
    apply step_steps_left in Hs; [lia | done].
Qed.

(** In the protocol, the threads only stop when all three have finished. *)
Lemma quiescent_finished s :
  Inv u host s → quiescent u host s →
  pc s = MDone (LookupIP_range (got qa) (got qaaaa))
  ∧ hA s = HDone ∧ hAAAA s = HDone.
Proof.
  intros (HA & HAAAA & HM) Hq.
  pose proof (Hq TMain) as Hmain. pose proof (Hq TA) as Ha.
  pose proof (Hq TAAAA) as Haaaa.
  destruct s as [m ha haaaa c1 c2]. simpl in *.
  unfold LookupIP_step in Hmain. simpl in *.
  destruct m as [| | |ra|ra raaaa|out]; simpl in *; try done.
  - (* waiting for the A query *)
    destruct ha as [|[e0|] r0|r0| | |]; simpl in *; try done.
    + by destruct HA as [_ ->].
    + by destruct HA as [_ ->].
    + by destruct HA as [_ ->].
  - (* waiting for the AAAA query *)
    destruct haaaa as [|[e0|] r0|r0| | |]; simpl in *; try done.
    + by destruct HAAAA as [_ ->].
    + by destruct HAAAA as [_ ->].
    + by destruct HAAAA as [_ ->].
  - (* LookupIP has returned *)
    subst out. split; [done|].
    destruct ha as [|[e0|] r0|r0| | |]; simpl in *; try done.
    + by destruct HA as [_ ->].
    + destruct haaaa as [|[e0|] r0|r0| | |]; simpl in *; try done.
      by destruct HAAAA as [_ ->].
Qed.

(** Whatever the schedule, a LookupIP that returns has run its two loops
    over what the two channels yielded. *)
Lemma LookupIP_result sched out :
  LookupIP u host sched = Some out →
  out = LookupIP_range (got qa) (got qaaaa).
Proof.
  unfold LookupIP.
  destruct (exec u host sched LookupIP_start) as [s|] eqn:Hex; [|done].
  destruct (exec_inv _ _ _ Inv_start Hex) as (_ & _ & HM).
  destruct (pc s); try done. by intros [= <-].
Qed.

Lemma LookupIP_complete sched s :
  exec u host sched LookupIP_start = Some s → quiescent u host s →
  LookupIP u host sched = Some (LookupIP_range (got qa) (got qaaaa)).
Proof.
  intros Hex Hq. unfold LookupIP. rewrite Hex.
  destruct (quiescent_finished s) as (-> & _); [|done..].
  by eapply exec_inv; [apply Inv_start|].
Qed.

End Protocol.

(** ** More on the channel protocol *)

Section Completion.

Variables (u : Unbound) (host : string).

Lemma exec_app sched1 : ∀ sched2 s,
  exec u host (sched1 ++ sched2) s =
  match exec u host sched1 s with
  | Some s1 => exec u host sched2 s1
  | None => None
  end.
Proof.
  induction sched1 as [|t sched1 IH]; intros sched2 s; simpl; [done|].
  destruct (step u host t s); [apply IH | done].
Qed.

Lemma quiescent_or_step s :
  quiescent u host s ∨ ∃ t s', step u host t s = Some s'.
Proof.
  destruct (step u host TMain s) as [s'|] eqn:Hm; [right; by eauto|].
  destruct (step u host TA s) as [s'|] eqn:Ha; [right; by eauto|].
  destruct (step u host TAAAA s) as [s'|] eqn:Haaaa; [right; by eauto|].
  left. by intros [].
Qed.

(** In the protocol, the threads can always be run to rest. *)
Lemma exec_to_rest n : ∀ s,
  (steps_left s < n)%nat → Inv u host s →
  ∃ sched s', exec u host sched s = Some s' ∧ quiescent u host s'.
Proof.
  induction n as [|n IH]; intros s Hn HI; [lia|].
  destruct (quiescent_or_step s) as [Hq|(t & s1 & Hstep)].
  - exists [], s. by split.
  - destruct (IH s1) as (sched & s' & Hex & Hq).
    + pose proof (step_steps_left u host t s s1 HI Hstep). lia.
    + by eapply step_inv.
    + exists (t :: sched), s'. split; [|done]. simpl. by rewrite Hstep.
Qed.

(** In the protocol, there is one state of rest. *)
Lemma quiescent_state s :
  Inv u host s → quiescent u host s →
  s = mkState
        (MDone (LookupIP_range (got (u host TypeA ClassINET))
                  (got (u host TypeAAAA ClassINET))))
        HDone HDone
        (mkChan true 1 (sent (u host TypeA ClassINET)))
        (mkChan true 1 (sent (u host TypeAAAA ClassINET))).
Proof.
  intros HI Hq.
  destruct (quiescent_finished u host s HI Hq) as (Hpc & Ha & Haaaa).
  destruct HI as (HA & HAAAA & _).
  destruct s as [m ha haaaa c1 c2]. simpl in *. subst m ha haaaa.
  simpl in *. by subst c1 c2.
Qed.

End Completion.

(** ** The priority sort as an arrangement of lists *)

Section TwoPositions.

Context {T : Type}.
Variables (pre mid t : list T) (x y : T).

Lemma lookup_first_position :
  (pre ++ x :: mid ++ y :: t)%list !! length pre = Some x.
Proof. by apply list_lookup_middle. Qed.

Lemma lookup_second_position :
  (pre ++ x :: mid ++ y :: t)%list !! (length pre + S (length mid))%nat = Some y.
Proof.
  rewrite lookup_app_r by lia.
  replace (length pre + S (length mid) - length pre)%nat
    with (S (length mid)) by lia.
  simpl. by apply list_lookup_middle.
Qed.

Lemma insert_both_positions (a b : T) :
  <[length pre := b]>
    (<[(length pre + S (length mid))%nat := a]>
       (pre ++ x :: mid ++ y :: t)%list)
  = (pre ++ b :: mid ++ a :: t)%list.
Proof.
  rewrite (insert_app_r_alt pre _ (length pre + S (length mid))) by lia.
  replace (length pre + S (length mid) - length pre)%nat
    with (S (length mid)) by lia.
  simpl. rewrite (insert_app_r_alt mid _ (length mid)) by lia.
  rewrite Nat.sub_diag. simpl.
  rewrite (insert_app_r_alt pre _ (length pre)) by lia.
  by rewrite Nat.sub_diag.
Qed.

End TwoPositions.

Lemma sweep_length x : ∀ rest, length (sweep x rest).2 = length rest.
Proof.
  intros rest. revert x.
  induction rest as [|y t IH]; intros x; simpl; [done|].
  destruct (Priority x >? Priority y).
  - specialize (IH y). destruct (sweep y t) as [m t']. simpl in *. lia.
  - specialize (IH x). destruct (sweep x t) as [m t']. simpl in *. lia.
Qed.

(** The inner loop, past its first round, is one pass over the records
    after position [j]. *)
Lemma sort_inner_sweep fuel : ∀ pre x mid rest,
  (length rest < fuel)%nat →
  sort_inner fuel (length pre) (length pre + S (length mid))
    (pre ++ x :: mid ++ rest)%list
  = Some (pre ++ (sweep x rest).1 :: mid ++ (sweep x rest).2)%list.
Proof.
  induction fuel as [|fuel IH]; intros pre x mid rest Hfuel; [lia|].
  cbn [sort_inner]. destruct rest as [|y t].
  - destruct (decide _) as [Hlt|_]; [|done].
    rewrite !length_app in Hlt. simpl in Hlt.
    rewrite length_app in Hlt. simpl in Hlt. lia.
  - destruct (decide _) as [_|Hge].
    2:{ destruct Hge. rewrite !length_app. simpl.
        rewrite length_app. simpl. lia. }
    rewrite (swap_if_greater_eq _ _ _ x y
               (lookup_first_position pre mid t x y)
               (lookup_second_position pre mid t x y)).
    simpl in Hfuel. simpl.
    destruct (Priority x >? Priority y).
    + rewrite insert_both_positions.
      replace (pre ++ y :: mid ++ x :: t)%list
        with (pre ++ y :: (mid ++ [x]) ++ t)%list by (by rewrite <- app_assoc).
      replace (S (length pre + S (length mid)))
        with (length pre + S (length (mid ++ [x])%list))%nat
        by (rewrite length_app; simpl; lia).
      rewrite IH by lia. destruct (sweep y t) as [m t']. simpl.
      by rewrite <- app_assoc.
    + replace (pre ++ x :: mid ++ y :: t)%list
        with (pre ++ x :: (mid ++ [y]) ++ t)%list by (by rewrite <- app_assoc).
      replace (S (length pre + S (length mid)))
        with (length pre + S (length (mid ++ [y])%list))%nat
        by (rewrite length_app; simpl; lia).
      rewrite IH by lia. destruct (sweep x t) as [m t']. simpl.
      by rewrite <- app_assoc.
Qed.

(** The inner loop from its start: the first round compares [srv[i]] with
    itself. *)
Lemma sort_inner_pass pre x rest :
  sort_inner (S (length (pre ++ x :: rest)%list)) (length pre) (length pre)
    (pre ++ x :: rest)%list
  = Some (pre ++ (sweep x rest).1 :: (sweep x rest).2)%list.
Proof.
  cbn [sort_inner]. destruct (decide _) as [_|Hge].
  2:{ destruct Hge. rewrite length_app. simpl. lia. }
  pose proof (list_lookup_middle pre rest x (length pre) eq_refl) as Hx.
  rewrite (swap_if_greater_eq _ _ _ x x Hx Hx).
  assert ((Priority x >? Priority x) = false) as ->
    by (rewrite Z.gtb_ltb; apply Z.ltb_irrefl).
  replace (S (length pre)) with (length pre + S (length (@nil RR_SRV)))%nat
    by (simpl; lia).
  rewrite (sort_inner_sweep _ pre x [] rest); [done|].
  rewrite length_app. simpl. lia.
Qed.

Lemma sort_outer_exchange_order fuel : ∀ pre suffix,
  (length suffix < fuel)%nat →
  sort_outer fuel (length pre) (pre ++ suffix)%list
  = Some (pre ++ exchange_order_fuel (length suffix) suffix)%list.
Proof.
  induction fuel as [|fuel IH]; intros pre suffix Hfuel; [lia|].
  cbn [sort_outer]. destruct suffix as [|x rest].
  - destruct (decide _) as [Hlt|_]; [|done].
    rewrite length_app in Hlt. simpl in Hlt. lia.
  - destruct (decide _) as [_|Hge].
    2:{ destruct Hge. rewrite length_app. simpl. lia. }
    rewrite sort_inner_pass. simpl in Hfuel. simpl.
    pose proof (sweep_length x rest) as Hlen.
    destruct (sweep x rest) as [m rest']. simpl in *.
    replace (pre ++ m :: rest')%list with ((pre ++ [m]) ++ rest')%list
      by (by rewrite <- app_assoc).
    replace (S (length pre)) with (length (pre ++ [m])%list)
      by (rewrite length_app; simpl; lia).
    rewrite IH by lia. rewrite Hlen. by rewrite <- app_assoc.
Qed.

(** The loops of LookupSRV compute [exchange_order]. *)
Lemma sortByPriority_exchange_order srv :
  sortByPriority srv = Some (exchange_order srv).
Proof.
  unfold sortByPriority, exchange_order.
  apply (sort_outer_exchange_order (S (length srv)) [] srv). lia.
Qed.

(** ** The single-query lookups, unfolded *)

Lemma srvName_empty name : srvName "" "" name = name.
Proof. done. Qed.

Lemma srvName_service service proto name :
  ¬ (service = "" ∧ proto = "") →
  srvName service proto name =
  "_" +:+ service +:+ "._" +:+ proto +:+ "." +:+ name.
Proof.
  intros Hne. unfold srvName.
  destruct (bool_decide_reflect (service = "")) as [->|?];
    destruct (bool_decide_reflect (proto = "")) as [->|?]; simpl; try done.
  by destruct Hne.
Qed.

(** LookupSRV issues its one query first; what it returns is decided by the
    answer alone. *)
Lemma LookupSRV_eq u service proto name log :
  LookupSRV u service proto name log =
  (SRV_answer (u (srvName service proto name) TypeSRV ClassINET),
   (log ++ [mkQuery (srvName service proto name) TypeSRV ClassINET])%list).
Proof.
  unfold LookupSRV, srvName, SRV_answer, bind, Resolve, lift, ret.
  destruct (bool_decide (service = "") && bool_decide (proto = ""));
    (destruct (u _ TypeSRV ClassINET) as [r [e|]]; [done|]);
    (destruct (deref r) as [res|]; simpl; [|done]);
    (destruct (range_append _ _ _) as [srv|]; simpl; [|done]);
    by destruct (sortByPriority srv).
Qed.

Lemma SRV_answer_records cn records :
  ∃ sorted,
    SRV_answer (Some (mkResult cn (rr_SRV <$> records)), None)
    = Returns ("", sorted, None)
    ∧ sorted ≡ₚ records ∧ StronglySorted prio_le sorted.
Proof.
  unfold SRV_answer; simpl.
  rewrite (range_append_one_fmap as_SRV rr_SRV) by done. simpl.
  destruct (sortByPriority_spec records) as (sorted & -> & Hperm & Hsorted).
  by exists sorted.
Qed.

Lemma chan_inv_closed_exactly_once q ph h c :
  chan_inv q ph h c → closed_exactly_once q h c.
Proof.
  destruct q as [r [e|]], ph, h; simpl; try done;
    intros HI; destruct_and?; simplify_eq/=; by repeat split.
Qed.

Lemma SRV_answer_cname q cname srv err :
  SRV_answer q = Returns (cname, srv, err) → cname = "".
Proof.
  destruct q as [r [e|]]; simpl; [by intros [= <- _ _]|].
  destruct (deref r) as [res|]; simpl; [|done].
  destruct (range_append _ _ _) as [l|]; simpl; [|done].
  destruct (sortByPriority l); [|done]. by intros [= <- _ _].
Qed.

Lemma SRV_answer_Panics q :
  SRV_answer q = Panics → ¬ answer_typed as_SRV q.
Proof.
  destruct q as [[res|] [e|]]; simpl; try done; [|by auto].
  intros Hp Hty.
  destruct (range_append_one_Returns as_SRV (Rr res) Hty []) as [l Hl].
  rewrite Hl in Hp. simpl in Hp.
  destruct (sortByPriority_spec l) as (sorted & Hs & _).
  by rewrite Hs in Hp.
Qed.

(** ** Main results *)

(** C1. LookupIP does not absorb the failure of one family: when the A
    query fails, [lookupHelper] closes the channel without sending,
    LookupIP receives [nil] and reads [ra.Rr] through it.  With the A query
    failing and the AAAA query answered with one address, and with both
    queries failing, LookupIP panics in some execution and returns in
    none. *)
Theorem LookupIP_family_failure_panics :
  LookupIP u_only_aaaa "example.com" sched_a_fails = Some Panics
  ∧ LookupIP u_neither "example.com" sched_both_fail = Some Panics
  ∧ ∀ sched,
      (LookupIP u_only_aaaa "example.com" sched = None
       ∨ LookupIP u_only_aaaa "example.com" sched = Some Panics)
      ∧ (LookupIP u_neither "example.com" sched = None
         ∨ LookupIP u_neither "example.com" sched = Some Panics).
Proof.
  split; [done|]. split; [done|]. intros sched. split.
  - destruct (LookupIP u_only_aaaa "example.com" sched) as [out|] eqn:Hout;
      [right | by left].
    by rewrite (LookupIP_result _ _ _ _ Hout).
  - destruct (LookupIP u_neither "example.com" sched) as [out|] eqn:Hout;
      [right | by left].
    by rewrite (LookupIP_result _ _ _ _ Hout).
Qed.

(** C2, as stated, fails: LookupSRV does not keep records of equal priority
    in the order of the response.  For the response [a; b; c] with
    priorities 2, 2, 1 it returns [c; b; a]: the band of priority 2 is
    [b; a], not [a; b]. *)
Lemma LookupSRV_not_stable :
  fst (LookupSRV u_srv_abc "ldap" "tcp" "example.com" [])
  = Returns ("", [srv_c; srv_b; srv_a], None)
  ∧ band 2 [srv_a; srv_b; srv_c] = [srv_a; srv_b]
  ∧ band 2 [srv_c; srv_b; srv_a] = [srv_b; srv_a]
  ∧ band 2 [srv_c; srv_b; srv_a] ≠ band 2 [srv_a; srv_b; srv_c].
Proof. by repeat split. Qed.

(** C2, amended.  For every response made of SRV records, LookupSRV returns
    these records rearranged in ascending order of priority. *)
Theorem LookupSRV_sorted_by_priority u service proto name log cn records :
  u (srvName service proto name) TypeSRV ClassINET
  = (Some (mkResult cn (rr_SRV <$> records)), None) →
  ∃ sorted,
    fst (LookupSRV u service proto name log) = Returns ("", sorted, None)
    ∧ sorted ≡ₚ records
    ∧ StronglySorted prio_le sorted.
Proof.
  intros Hu. rewrite LookupSRV_eq, Hu. apply SRV_answer_records.
Qed.

Lemma LookupSRV_sorted_by_priority_witness :
  u_srv_abc (srvName "ldap" "tcp" "example.com") TypeSRV ClassINET
  = (Some (mkResult "canon.example.com." (rr_SRV <$> [srv_a; srv_b; srv_c])), None)
  ∧ ∃ sorted,
      fst (LookupSRV u_srv_abc "ldap" "tcp" "example.com" [])
      = Returns ("", sorted, None)
      ∧ sorted ≡ₚ [srv_a; srv_b; srv_c]
      ∧ StronglySorted prio_le sorted.
Proof.
  split; [reflexivity|].
  apply (LookupSRV_sorted_by_priority u_srv_abc "ldap" "tcp" "example.com" []
           "canon.example.com." [srv_a; srv_b; srv_c]).
  reflexivity.
Defined.

(** C3. LookupSRV does not randomize by weight: two records of one priority
    come back in the order of the response whatever their weights are, so a
    record of weight 0 placed first by the resolver is always returned
    first, ahead of a record of any weight. *)
Theorem LookupSRV_ignores_weight p w1 w2 service proto name log :
  fst (LookupSRV (u_pair p w1 w2) service proto name log)
  = Returns ("", [mkSRV p w1 80 "first.example.com.";
                  mkSRV p w2 80 "second.example.com."], None).
Proof.
  assert ((p >? p) = false) as Hpp by (rewrite Z.gtb_ltb; apply Z.ltb_irrefl).
  rewrite LookupSRV_eq. unfold u_pair, SRV_answer, sortByPriority. simpl.
  repeat (unfold swap_if_greater; simpl; rewrite Hpp).
  done.
Qed.

(** C4. In every execution of LookupIP, each of the two channels handed to
    [lookupHelper] is closed exactly once: no helper closes a closed channel
    or sends on one; a channel stays open until its helper has returned and
    is closed from then on, by a single [close], with nothing sent when the
    query failed and after the result went through when it succeeded.  No
    execution has more than 13 steps, and the threads only come to rest when
    LookupIP and both helpers have returned, so no receive waits for ever and
    both channels end up closed. *)
Theorem lookupHelper_closes_exactly_once u host sched s :
  exec u host sched LookupIP_start = Some s →
  closed_exactly_once (u host TypeA ClassINET) (hA s) (ca s)
  ∧ closed_exactly_once (u host TypeAAAA ClassINET) (hAAAA s) (caaaa s)
  ∧ (length sched ≤ 13)%nat
  ∧ (quiescent u host s →
       (∃ out, pc s = MDone out) ∧ hA s = HDone ∧ hAAAA s = HDone
       ∧ closed (ca s) = true ∧ closed (caaaa s) = true).
Proof.
  intros Hex.
  pose proof (exec_inv u host sched _ _ (Inv_start u host) Hex) as HI.
  pose proof (exec_steps_left u host sched _ _ (Inv_start u host) Hex) as Hn.
  destruct HI as (HA & HAAAA & HM).
  apply chan_inv_closed_exactly_once in HA as HA'.
  apply chan_inv_closed_exactly_once in HAAAA as HAAAA'.
  split; [done|]. split; [done|]. split.
  - unfold steps_left in Hn at 2. simpl in Hn. lia.
  - intros Hq.
    destruct (quiescent_finished u host s) as (Hpc & Ha & Haaaa);
      [by repeat split | done |].
    split; [by eauto|]. split; [done|]. split; [done|].
    destruct HA' as (_ & _ & Hca). destruct HAAAA' as (_ & _ & Hcaaaa).
    rewrite (Hca Ha), (Hcaaaa Haaaa). done.
Qed.

Lemma lookupHelper_closes_exactly_once_witness :
  exec u_both "example.com" sched_seq LookupIP_start = Some state_both_done
  ∧ closed_exactly_once (u_both "example.com" TypeA ClassINET)
      (hA state_both_done) (ca state_both_done)
  ∧ closed_exactly_once (u_both "example.com" TypeAAAA ClassINET)
      (hAAAA state_both_done) (caaaa state_both_done)
  ∧ (length sched_seq ≤ 13)%nat
  ∧ (quiescent u_both "example.com" state_both_done →
       (∃ out, pc state_both_done = MDone out)
       ∧ hA state_both_done = HDone ∧ hAAAA state_both_done = HDone
       ∧ closed (ca state_both_done) = true
       ∧ closed (caaaa state_both_done) = true).
Proof.
  split; [reflexivity|].
  apply (lookupHelper_closes_exactly_once u_both "example.com" sched_seq
           state_both_done).
  reflexivity.
Defined.

(** C5. When the A query is answered with the addresses [v4] and the AAAA
    query with the addresses [v6], LookupIP returns [v4] followed by [v6]
    with a nil error, and LookupHost returns the strings of these addresses
    in the same order.  No execution makes them return anything else; every
    execution has at most 13 steps and can be continued until no thread can
    step, and by then both have returned these lists. *)
Theorem LookupIP_LookupHost_order IP_String u host cn4 cn6 v4 v6 :
  u host TypeA ClassINET = (Some (mkResult cn4 (rr_A <$> v4)), None) →
  u host TypeAAAA ClassINET = (Some (mkResult cn6 (rr_AAAA <$> v6)), None) →
  (∀ sched,
     (LookupIP u host sched = None
      ∨ LookupIP u host sched = Some (Returns ((v4 ++ v6)%list, None)))
     ∧ (LookupHost IP_String u host sched = None
        ∨ LookupHost IP_String u host sched
          = Some (Returns (IP_String <$> (v4 ++ v6)%list, None))))
  ∧ (∀ sched s, exec u host sched LookupIP_start = Some s →
       (length sched ≤ 13)%nat
       ∧ (∃ sched' s',
            exec u host (sched ++ sched') LookupIP_start = Some s'
            ∧ quiescent u host s'
            ∧ LookupIP u host (sched ++ sched')
              = Some (Returns ((v4 ++ v6)%list, None))
            ∧ LookupHost IP_String u host (sched ++ sched')
              = Some (Returns (IP_String <$> (v4 ++ v6)%list, None)))
       ∧ (quiescent u host s →
            LookupIP u host sched = Some (Returns ((v4 ++ v6)%list, None))
            ∧ LookupHost IP_String u host sched
              = Some (Returns (IP_String <$> (v4 ++ v6)%list, None)))).
Proof.
  intros Ha Haaaa.
  assert (LookupIP_range (got (u host TypeA ClassINET))
            (got (u host TypeAAAA ClassINET))
          = Returns ((v4 ++ v6)%list, None)) as Hrange.
  { rewrite Ha, Haaaa. unfold LookupIP_range. simpl.
    rewrite (range_append_one_fmap as_A rr_A) by done. simpl.
    by rewrite (range_append_one_fmap as_AAAA rr_AAAA) by done. }
  assert (∀ sched s, exec u host sched LookupIP_start = Some s →
            quiescent u host s →
            LookupIP u host sched = Some (Returns ((v4 ++ v6)%list, None))
            ∧ LookupHost IP_String u host sched
              = Some (Returns (IP_String <$> (v4 ++ v6)%list, None)))
    as Hrest.
  { intros sched s Hex Hq. unfold LookupHost.
    by rewrite (LookupIP_complete u host sched s Hex Hq), Hrange. }
  split.
  - intros sched.
    assert (LookupIP u host sched = None
            ∨ LookupIP u host sched = Some (Returns ((v4 ++ v6)%list, None)))
      as Hip.
    { destruct (LookupIP u host sched) as [out|] eqn:Hout; [right | by left].
      by rewrite (LookupIP_result _ _ _ _ Hout), Hrange. }
    split; [done|].
    unfold LookupHost. destruct Hip as [-> | ->]; [by left | by right].
  - intros sched s Hex.
    pose proof (exec_inv u host sched _ _ (Inv_start u host) Hex) as HI.
    pose proof (exec_steps_left u host sched _ _ (Inv_start u host) Hex) as Hn.
    split; [unfold steps_left in Hn at 2; simpl in Hn; lia|].
    split; [|intros Hq; by apply (Hrest sched s)].
    destruct (exec_to_rest u host (S (steps_left s)) s)
      as (sched' & s' & Hex' & Hq); [lia | done |].
    assert (exec u host (sched ++ sched') LookupIP_start = Some s') as Hall.
    { by rewrite exec_app, Hex. }
    exists sched', s'. split; [done|]. split; [done|].
    by apply (Hrest (sched ++ sched')%list s').
Qed.

Lemma LookupIP_LookupHost_order_witness :
  u_both "example.com" TypeA ClassINET
  = (Some (mkResult "" (rr_A <$> [ip4])), None)
  ∧ u_both "example.com" TypeAAAA ClassINET
    = (Some (mkResult "" (rr_AAAA <$> [ip6])), None)
  ∧ exec u_both "example.com" [TMain; TMain; TAAAA] LookupIP_start
    = Some (mkState MRecvA (HCall None (Some (mkResult "" [rr_A ip4])))
              (HSend (Some (mkResult "" [rr_AAAA ip6]))) make_chan make_chan)
  ∧ (length [TMain; TMain; TAAAA] ≤ 13)%nat
  ∧ (∃ sched' s',
       exec u_both "example.com" ([TMain; TMain; TAAAA] ++ sched')
         LookupIP_start = Some s'
       ∧ quiescent u_both "example.com" s'
       ∧ LookupIP u_both "example.com" ([TMain; TMain; TAAAA] ++ sched')
         = Some (Returns (([ip4] ++ [ip6])%list, None))
       ∧ LookupHost ip_text u_both "example.com"
           ([TMain; TMain; TAAAA] ++ sched')
         = Some (Returns (ip_text <$> ([ip4] ++ [ip6])%list, None)))
  ∧ (LookupIP u_both "example.com" sched_seq = None
     ∨ LookupIP u_both "example.com" sched_seq
       = Some (Returns (([ip4] ++ [ip6])%list, None)))
  ∧ (LookupHost ip_text u_both "example.com" sched_seq = None
     ∨ LookupHost ip_text u_both "example.com" sched_seq
       = Some (Returns (ip_text <$> ([ip4] ++ [ip6])%list, None))).
Proof.
  pose proof (LookupIP_LookupHost_order ip_text u_both "example.com" "" ""
                [ip4] [ip6] eq_refl eq_refl) as [Hsafe Hlive].
  split; [reflexivity|]. split; [reflexivity|]. split; [reflexivity|].
  destruct (Hlive [TMain; TMain; TAAAA]
              (mkState MRecvA (HCall None (Some (mkResult "" [rr_A ip4])))
                 (HSend (Some (mkResult "" [rr_AAAA ip6])))
                 make_chan make_chan))
    as (Hlen & Hcont & _); [reflexivity|].
  split; [exact Hlen|]. split; [exact Hcont|].
  exact (Hsafe sched_seq).
Defined.

(** C6. LookupSRV issues exactly one query, of type SRV and class INET: for
    the given name when service and proto are both empty, and otherwise for
    "_" + service + "._" + proto + "." + name, with nothing else done to the
    name. *)
Theorem LookupSRV_query_name u service proto name log :
  snd (LookupSRV u service proto name log) =
  (log ++ [mkQuery
             (if decide (service = "" ∧ proto = "") then name
              else "_" +:+ service +:+ "._" +:+ proto +:+ "." +:+ name)
             TypeSRV ClassINET])%list.
Proof.
  rewrite LookupSRV_eq. simpl. do 3 f_equal.
  destruct (decide (service = "" ∧ proto = "")) as [[-> ->]|Hne].
  - apply srvName_empty.
  - by apply srvName_service.
Qed.

(** C7. The canonical name LookupSRV returns is the empty string, with the
    resolver's error and with its records alike; and LookupSRV does return
    unless the answer is a nil result or holds a record that is not an SRV
    record. *)
Theorem LookupSRV_cname_empty u service proto name log :
  match fst (LookupSRV u service proto name log) with
  | Returns (cname, _, _) => cname = ""
  | Panics =>
      ¬ answer_typed as_SRV (u (srvName service proto name) TypeSRV ClassINET)
  end.
Proof.
  rewrite LookupSRV_eq. simpl.
  destruct (SRV_answer _) as [[[cname srv] err]|] eqn:Hans.
  - by eapply SRV_answer_cname.
  - by apply SRV_answer_Panics.
Qed.

(** C8, as stated, fails: for an address with a reverse form, a resolver
    that finds no PTR record and reports no error makes LookupAddr return an
    empty name list together with a nil error. *)
Lemma LookupAddr_empty_without_error :
  reverse_sample "192.0.2.1" = ("1.2.0.192.in-addr.arpa.", None)
  ∧ u_nodata "1.2.0.192.in-addr.arpa." TypePTR ClassINET
    = (Some (mkResult "" []), None)
  ∧ fst (LookupAddr reverse_sample u_nodata "192.0.2.1" [])
    = Returns ([], None).
Proof. by repeat split. Qed.

(** C8, amended.  For every address string with a reverse form, LookupAddr
    returns either the resolver's error with no names, or a nil error with
    the names of the PTR records of the response, one per record and in the
    order of the response. *)
Theorem LookupAddr_names_or_error ReverseAddr u addr reverse log :
  ReverseAddr addr = (reverse, None) →
  (∀ r e, u reverse TypePTR ClassINET = (r, Some e) →
     fst (LookupAddr ReverseAddr u addr log) = Returns ([], Some e))
  ∧ (∀ cn names,
       u reverse TypePTR ClassINET = (Some (mkResult cn (rr_PTR <$> names)), None) →
       fst (LookupAddr ReverseAddr u addr log) = Returns (names, None)).
Proof.
  intros Hrev. split.
  - intros r e Hu. unfold LookupAddr, bind, Resolve. by rewrite Hrev, Hu.
  - intros cn names Hu. unfold LookupAddr, bind, Resolve, lift.
    rewrite Hrev, Hu. simpl.
    by rewrite (range_append_one_fmap as_PTR rr_PTR) by done.
Qed.

Lemma LookupAddr_names_or_error_witness :
  reverse_sample "192.0.2.1" = ("1.2.0.192.in-addr.arpa.", None)
  ∧ (∀ r e, u_ptr "1.2.0.192.in-addr.arpa." TypePTR ClassINET = (r, Some e) →
       fst (LookupAddr reverse_sample u_ptr "192.0.2.1" [])
       = Returns ([], Some e))
  ∧ (∀ cn names,
       u_ptr "1.2.0.192.in-addr.arpa." TypePTR ClassINET
       = (Some (mkResult cn (rr_PTR <$> names)), None) →
       fst (LookupAddr reverse_sample u_ptr "192.0.2.1" [])
       = Returns (names, None)).
Proof.
  split; [reflexivity|].
  apply (LookupAddr_names_or_error reverse_sample u_ptr "192.0.2.1"
           "1.2.0.192.in-addr.arpa." []).
  reflexivity.
Defined.

(** C9. The single-query lookups fail fast.  When the address has no
    reverse form, LookupAddr returns the conversion error with no names and
    issues no query.  When the resolver reports an error, LookupAddr,
    LookupMX and LookupTXT each return an empty list together with that
    error, whatever records came with it. *)
Theorem single_query_lookups_fail_fast ReverseAddr u :
  (∀ addr reverse e log, ReverseAddr addr = (reverse, Some e) →
     LookupAddr ReverseAddr u addr log = (Returns ([], Some e), log))
  ∧ (∀ addr reverse r e log, ReverseAddr addr = (reverse, None) →
       u reverse TypePTR ClassINET = (r, Some e) →
       fst (LookupAddr ReverseAddr u addr log) = Returns ([], Some e))
  ∧ (∀ name r e log, u name TypeMX ClassINET = (r, Some e) →
       fst (LookupMX u name log) = Returns ([], Some e))
  ∧ (∀ name r e log, u name TypeTXT ClassINET = (r, Some e) →
       fst (LookupTXT u name log) = Returns ([], Some e)).
Proof.
  split; [|split; [|split]].
  - intros addr reverse e log Hrev. unfold LookupAddr. by rewrite Hrev.
  - intros addr reverse r e log Hrev Hu.
    unfold LookupAddr, bind, Resolve. by rewrite Hrev, Hu.
  - intros name r e log Hu. unfold LookupMX, bind, Resolve. by rewrite Hu.
  - intros name r e log Hu. unfold LookupTXT, bind, Resolve. by rewrite Hu.
Qed.

Lemma single_query_lookups_fail_fast_witness :
  LookupAddr reverse_sample u_fail "not an address" []
  = (Returns ([], Some (ErrMsg "unrecognized address")), [])
  ∧ fst (LookupAddr reverse_sample u_fail "192.0.2.1" [])
    = Returns ([], Some (ErrMsg "servfail"))
  ∧ fst (LookupMX u_fail "example.com" [])
    = Returns ([], Some (ErrMsg "servfail"))
  ∧ fst (LookupTXT u_fail "example.com" [])
    = Returns ([], Some (ErrMsg "servfail")).
Proof.
  destruct (single_query_lookups_fail_fast reverse_sample u_fail)
    as (Hconv & Haddr & Hmx & Htxt).
  split; [|split; [|split]].
  - apply (Hconv "not an address" ""). reflexivity.
  - apply (Haddr "192.0.2.1" "1.2.0.192.in-addr.arpa."
             (Some (mkResult "" [rr_PTR "host.example.com.";
                                 rr_MX (mkMX 10 "mx.example.com.");
                                 rr_TXT ["v=spf1"]]))); reflexivity.
  - apply (Hmx "example.com"
             (Some (mkResult "" [rr_PTR "host.example.com.";
                                 rr_MX (mkMX 10 "mx.example.com.");
                                 rr_TXT ["v=spf1"]]))); reflexivity.
  - apply (Htxt "example.com"
             (Some (mkResult "" [rr_PTR "host.example.com.";
                                 rr_MX (mkMX 10 "mx.example.com.");
                                 rr_TXT ["v=spf1"]]))); reflexivity.
Defined.

(** C10. LookupSRV is deterministic.  Two calls with the same service,
    proto and name whose queries get the same answer return the same
    canonical name, the same records in the same order and the same error,
    whatever else the two resolvers answer and whatever was asked before.
    For an answer made of SRV records, what both return is the one
    arrangement [exchange_order] of the records of the response, which
    fixes the place of every record, those of equal priority included:
    nothing but the response enters into it. *)
Theorem LookupSRV_deterministic u1 u2 service proto name log1 log2 :
  u1 (srvName service proto name) TypeSRV ClassINET
  = u2 (srvName service proto name) TypeSRV ClassINET →
  fst (LookupSRV u1 service proto name log1)
  = fst (LookupSRV u2 service proto name log2)
  ∧ (∀ cn records,
       u1 (srvName service proto name) TypeSRV ClassINET
       = (Some (mkResult cn (rr_SRV <$> records)), None) →
       fst (LookupSRV u1 service proto name log1)
       = Returns ("", exchange_order records, None)
       ∧ fst (LookupSRV u2 service proto name log2)
         = Returns ("", exchange_order records, None)).
Proof.
  intros Hu. rewrite !LookupSRV_eq. simpl. rewrite <- Hu. split; [done|].
  intros cn records ->. unfold SRV_answer. simpl.
  rewrite (range_append_one_fmap as_SRV rr_SRV) by done. simpl.
  by rewrite sortByPriority_exchange_order.
Qed.

Lemma LookupSRV_deterministic_witness :
  u_srv_abc (srvName "ldap" "tcp" "example.com") TypeSRV ClassINET
  = u_srv_abc' (srvName "ldap" "tcp" "example.com") TypeSRV ClassINET
  ∧ fst (LookupSRV u_srv_abc "ldap" "tcp" "example.com" [])
    = fst (LookupSRV u_srv_abc' "ldap" "tcp" "example.com"
             [mkQuery "example.org" TypeA ClassINET])
  ∧ exchange_order [srv_a; srv_b; srv_c] = [srv_c; srv_b; srv_a]
  ∧ fst (LookupSRV u_srv_abc "ldap" "tcp" "example.com" [])
    = Returns ("", exchange_order [srv_a; srv_b; srv_c], None)
  ∧ fst (LookupSRV u_srv_abc' "ldap" "tcp" "example.com"
           [mkQuery "example.org" TypeA ClassINET])
    = Returns ("", exchange_order [srv_a; srv_b; srv_c], None).
Proof.
  pose proof (LookupSRV_deterministic u_srv_abc u_srv_abc' "ldap" "tcp"
                "example.com" [] [mkQuery "example.org" TypeA ClassINET]
                eq_refl) as [Hsame Hfixed].
  split; [reflexivity|]. split; [exact Hsame|]. split; [reflexivity|].
  exact (Hfixed "canon.example.com." [srv_a; srv_b; srv_c] eq_refl).
Defined.

(** ** More on the record loops *)

Lemma range_append_Panics {T} (f : RR → outcome (list T)) rrs :
  ∀ acc, range_append f rrs acc = Panics
         ↔ ¬ Forall (λ rr, ∃ x, f rr = Returns x) rrs.
Proof.
  induction rrs as [|rr rrs IH]; intros acc; simpl.
  - split; [done|]. intros Hn. destruct Hn. constructor.
  - destruct (f rr) as [xs|] eqn:Hf.
    + rewrite IH. split.
      * intros Hn Hall. apply Hn. by inversion Hall.
      * intros Hn Hall. apply Hn. constructor; [by eauto | done].
    + split; [|done]. intros _ Hall. inversion Hall as [|? ? [x Hx] ?].
      congruence.
Qed.

Lemma one_Returns {T} (f : RR → outcome T) rr :
  (∃ xs, one f rr = Returns xs) ↔ (∃ x, f rr = Returns x).
Proof.
  unfold one. destruct (f rr) as [x|]; split; intros [y Hy]; by eauto.
Qed.

Lemma range_append_one_Panics {T} (f : RR → outcome T) rrs acc :
  range_append (one f) rrs acc = Panics
  ↔ ¬ Forall (λ rr, ∃ x, f rr = Returns x) rrs.
Proof.
  rewrite range_append_Panics. apply not_iff_compat.
  apply Forall_proper; [|done]. intros rr. apply one_Returns.
Qed.

Lemma range_append_TXT txts : ∀ acc,
  range_append as_TXT (rr_TXT <$> txts) acc
  = Returns (acc ++ concat txts)%list.
Proof.
  induction txts as [|t txts IH]; intros acc; simpl.
  - by rewrite app_nil_r.
  - rewrite IH. by rewrite <- app_assoc.
Qed.

(** ** More on the priority sort *)

Lemma StronglySorted_prio_lookup srv :
  StronglySorted prio_le srv →
  ∀ a b x y, (a ≤ b)%nat →
    srv !! a = Some x → srv !! b = Some y → prio_le x y.
Proof.
  induction 1 as [|z l Hl IH Hz]; intros a b x y Hab Hx Hy; [done|].
  destruct a as [|a], b as [|b]; simpl in *; try lia.
  - injection Hx as <-. injection Hy as <-. unfold prio_le. lia.
  - injection Hx as <-. rewrite Forall_lookup in Hz. by eapply Hz.
  - apply (IH a b); [lia | done..].
Qed.

(** The inner loop exchanges nothing when [srv[i]] is at most every record
    from [j] on. *)
Lemma sort_inner_sorted fuel : ∀ i j srv,
  (length srv - j < fuel)%nat → (i < length srv)%nat →
  (∀ k x y, (j ≤ k)%nat →
     srv !! i = Some x → srv !! k = Some y → prio_le x y) →
  sort_inner fuel i j srv = Some srv.
Proof.
  induction fuel as [|fuel IH]; intros i j srv Hfuel Hin Hmin; [lia|].
  simpl. destruct (decide (j < length srv)%nat) as [Hlt|Hge]; [|done].
  destruct (lookup_lt_is_Some_2 srv i Hin) as [a Ha].
  destruct (lookup_lt_is_Some_2 srv j Hlt) as [b Hb].
  rewrite (swap_if_greater_eq i j srv a b Ha Hb).
  assert (prio_le a b) as Hle by (by apply (Hmin j)).
  destruct (Z.gtb_spec (Priority a) (Priority b)) as [Hgt|_];
    [unfold prio_le in Hle; lia|].
  apply IH; [lia | done |].
  intros k x y Hk. apply Hmin. lia.
Qed.

Lemma sort_outer_sorted fuel : ∀ i srv,
  (length srv - i < fuel)%nat →
  (∀ a b x y, (a ≤ b)%nat →
     srv !! a = Some x → srv !! b = Some y → prio_le x y) →
  sort_outer fuel i srv = Some srv.
Proof.
  induction fuel as [|fuel IH]; intros i srv Hfuel Hsorted; [lia|].
  cbn [sort_outer].
  destruct (decide (i < length srv)%nat) as [Hlt|Hge]; [|done].
  rewrite sort_inner_sorted; [|lia|done|].
  - apply IH; [lia | done].
  - intros k x y Hk. by apply Hsorted.
Qed.

Lemma sortByPriority_sorted srv :
  StronglySorted prio_le srv → sortByPriority srv = Some srv.
Proof.
  intros Hs. apply sort_outer_sorted; [lia|].
  by apply StronglySorted_prio_lookup.
Qed.

(** The loops look at priorities only. *)
Section PriorityOnly.

Variable f : RR_SRV → RR_SRV.
Hypothesis f_priority : ∀ r, Priority (f r) = Priority r.

Lemma swap_if_greater_fmap i j (srv : list RR_SRV) :
  swap_if_greater i j (f <$> srv) = fmap (M:=list) f <$> swap_if_greater i j srv.
Proof.
  unfold swap_if_greater. rewrite !list_lookup_fmap.
  destruct (srv !! i) as [a|]; [|done].
  destruct (srv !! j) as [b|]; [|done]. simpl.
  rewrite !f_priority.
  destruct (Priority a >? Priority b); simpl; [|done].
  by rewrite !list_fmap_insert.
Qed.

Lemma sort_inner_fmap fuel : ∀ i j (srv : list RR_SRV),
  sort_inner fuel i j (f <$> srv) = fmap (M:=list) f <$> sort_inner fuel i j srv.
Proof.
  induction fuel as [|fuel IH]; intros i j srv; [done|].
  simpl. rewrite length_fmap, swap_if_greater_fmap.
  destruct (decide (j < length srv)%nat); [|done].
  destruct (swap_if_greater i j srv) as [srv'|]; simpl; [|done].
  apply IH.
Qed.

Lemma sort_outer_fmap fuel : ∀ i (srv : list RR_SRV),
  sort_outer fuel i (f <$> srv) = fmap (M:=list) f <$> sort_outer fuel i srv.
Proof.
  induction fuel as [|fuel IH]; intros i srv; [done|].
  cbn [sort_outer]. rewrite length_fmap, sort_inner_fmap.
  destruct (decide (i < length srv)%nat); [|done].
  destruct (sort_inner (S (length srv)) i i srv) as [srv'|]; simpl; [|done].
  apply IH.
Qed.

Lemma sortByPriority_fmap (srv : list RR_SRV) :
  sortByPriority (f <$> srv) = fmap (M:=list) f <$> sortByPriority srv.
Proof. unfold sortByPriority. rewrite length_fmap. apply sort_outer_fmap. Qed.

End PriorityOnly.

(** The loops never write before position [i]. *)
Lemma sort_inner_below fuel : ∀ i j srv srv',
  (i ≤ j)%nat → sort_inner fuel i j srv = Some srv' →
  ∀ k, (k < i)%nat → srv' !! k = srv !! k.
Proof.
  induction fuel as [|fuel IH]; intros i j srv srv' Hij Hrun k Hk; [done|].
  simpl in Hrun.
  destruct (decide (j < length srv)%nat); [|by injection Hrun as <-].
  destruct (swap_if_greater i j srv) as [srv1|] eqn:Hswap; [|done].
  rewrite (IH i (S j) srv1 srv') by (done || lia).
  unfold swap_if_greater in Hswap.
  destruct (srv !! i) as [a|]; [|done].
  destruct (srv !! j) as [b|]; [|done].
  destruct (Priority a >? Priority b); injection Hswap as <-; [|done].
  rewrite !list_lookup_insert_ne by lia. done.
Qed.

Lemma sort_outer_below fuel : ∀ i srv srv',
  sort_outer fuel i srv = Some srv' →
  ∀ k, (k < i)%nat → srv' !! k = srv !! k.
Proof.
  induction fuel as [|fuel IH]; intros i srv srv' Hrun k Hk; [done|].
  cbn [sort_outer] in Hrun.
  destruct (decide (i < length srv)%nat); [|by injection Hrun as <-].
  destruct (sort_inner (S (length srv)) i i srv) as [srv1|] eqn:Hin; [|done].
  rewrite (IH (S i) srv1 srv') by (done || lia).
  by apply (sort_inner_below _ _ _ _ _ (le_n i) Hin).
Qed.

(** The record the inner loop leaves at position [i]. *)
Lemma sort_inner_at_i fuel : ∀ i j srv x,
  (i ≤ j)%nat → (i < length srv)%nat → (length srv - j < fuel)%nat →
  srv !! i = Some x →
  ∃ srv', sort_inner fuel i j srv = Some srv'
    ∧ srv' !! i = Some (foldl pick x (drop j srv)).
Proof.
  induction fuel as [|fuel IH]; intros i j srv x Hij Hin Hfuel Hx; [lia|].
  simpl. destruct (decide (j < length srv)%nat) as [Hlt|Hge].
  - destruct (lookup_lt_is_Some_2 srv j Hlt) as [b Hb].
    rewrite (swap_if_greater_eq i j srv x b Hx Hb).
    rewrite (drop_S srv b j Hb). simpl. unfold pick at 2.
    destruct (Priority x >? Priority b) eqn:Hcmp.
    + assert (i ≠ j) as Hne.
      { intros ->. rewrite Hx in Hb. injection Hb as ->.
        apply Z.gtb_lt in Hcmp. lia. }
      destruct (IH i (S j) (<[i := b]> (<[j := x]> srv)) b)
        as (srv' & Hrun & Hat).
      * lia.
      * by rewrite !length_insert.
      * rewrite !length_insert. lia.
      * by apply swapped_at_i.
      * exists srv'. split; [done|]. rewrite Hat.
        by rewrite !drop_insert_lt by lia.
    + apply IH; [lia | done | lia | done].
  - exists srv. split; [done|]. rewrite drop_ge by lia. done.
Qed.

Lemma foldl_pick_least m l :
  Forall (λ y, Priority m ≤ Priority y) l → foldl pick m l = m.
Proof.
  induction 1 as [|y l Hy _ IH]; simpl; [done|].
  unfold pick at 2.
  destruct (Z.gtb_spec (Priority m) (Priority y)); [lia | done].
Qed.

Lemma foldl_pick_first_least x l2 : ∀ l1 m,
  Priority x < Priority m →
  Forall (λ y, Priority x < Priority y) l1 →
  Forall (λ y, Priority x ≤ Priority y) l2 →
  foldl pick m (l1 ++ x :: l2) = x.
Proof.
  induction l1 as [|y l1 IH]; intros m Hm H1 H2; simpl.
  - unfold pick at 2.
    destruct (Z.gtb_spec (Priority m) (Priority x)); [|lia].
    by apply foldl_pick_least.
  - inversion H1 as [|? ? Hy H1']; subst.
    apply IH; [|done..]. unfold pick.
    by destruct (Priority m >? Priority y).
Qed.

(** The first record of the sorted list is the first of the records of
    least priority. *)
Lemma sortByPriority_first l1 x l2 :
  Forall (λ y, Priority x < Priority y) l1 →
  Forall (λ y, Priority x ≤ Priority y) l2 →
  ∃ rest, sortByPriority (l1 ++ x :: l2) = Some (x :: rest).
Proof.
  intros H1 H2.
  destruct (sortByPriority_spec (l1 ++ x :: l2)) as (sorted & Hrun & _).
  assert (sorted !! 0%nat = Some x) as Hhead.
  { unfold sortByPriority in Hrun. cbn [sort_outer] in Hrun.
    set (srv := (l1 ++ x :: l2)%list) in *.
    assert (0 < length srv)%nat as Hpos.
    { unfold srv. rewrite length_app. simpl. lia. }
    destruct (decide (0 < length srv)%nat); [|done].
    destruct (lookup_lt_is_Some_2 srv 0 Hpos) as [h Hh].
    destruct (sort_inner_at_i (S (length srv)) 0 0 srv h)
      as (srv1 & Hin & Hat); [lia..|done|].
    rewrite Hin in Hrun.
    rewrite (sort_outer_below _ _ _ _ Hrun 0%nat) by lia.
    rewrite Hat, drop_0. f_equal. unfold srv in *.
    destruct l1 as [|y l1]; simpl in *.
    - injection Hh as <-. unfold pick at 2.
      destruct (Z.gtb_spec (Priority x) (Priority x)); [lia|].
      by apply foldl_pick_least.
    - injection Hh as <-. unfold pick at 2.
      destruct (Z.gtb_spec (Priority y) (Priority y)); [lia|].
      inversion H1; subst. by apply foldl_pick_first_least. }
  destruct sorted as [|z rest]; [done|].
  injection Hhead as ->. by exists rest.
Qed.

(** ** Further results *)

(** X1. LookupCNAME issues one A query and hands back the canonical name of
    the result together with the resolver's error, which it does not look
    at; with a nil result it panics, whether or not there is an error. *)
Theorem LookupCNAME_name_and_error u name log :
  snd (LookupCNAME u name log) = (log ++ [mkQuery name TypeA ClassINET])%list
  ∧ match u name TypeA ClassINET with
    | (Some res, e) =>
        fst (LookupCNAME u name log) = Returns (CanonName res, e)
    | (None, _) => fst (LookupCNAME u name log) = Panics
    end.
Proof.
  unfold LookupCNAME, bind, Resolve, lift, ret.
  by destruct (u name TypeA ClassINET) as [[res|] e].
Qed.

(** X2. For a response of TXT records LookupTXT returns the text segments of
    all records in one list: record after record, and inside a record in
    the order of its segments. *)
Theorem LookupTXT_concatenates u name log cn txts :
  u name TypeTXT ClassINET = (Some (mkResult cn (rr_TXT <$> txts)), None) →
  fst (LookupTXT u name log) = Returns (concat txts, None).
Proof.
  intros Hu. unfold LookupTXT, bind, Resolve, lift, ret. rewrite Hu. simpl.
  by rewrite range_append_TXT.
Qed.

Lemma LookupTXT_concatenates_witness :
  u_txt "example.com" TypeTXT ClassINET
  = (Some (mkResult "" (rr_TXT <$> [["a"; "b"]; []; ["c"]])), None)
  ∧ fst (LookupTXT u_txt "example.com" [])
    = Returns (concat [["a"; "b"]; []; ["c"]], None).
Proof.
  split; [reflexivity|].
  apply (LookupTXT_concatenates u_txt "example.com" [] ""
           [["a"; "b"]; []; ["c"]]).
  reflexivity.
Defined.

(** X3. For a response of MX records LookupMX returns the records in the
    order of the response: it does not sort them by preference. *)
Theorem LookupMX_keeps_response_order u name log cn mxs :
  u name TypeMX ClassINET = (Some (mkResult cn (rr_MX <$> mxs)), None) →
  fst (LookupMX u name log) = Returns (mxs, None).
Proof.
  intros Hu. unfold LookupMX, bind, Resolve, lift, ret. rewrite Hu. simpl.
  by rewrite (range_append_one_fmap as_MX rr_MX) by done.
Qed.

Lemma LookupMX_keeps_response_order_witness :
  u_mx "example.com" TypeMX ClassINET
  = (Some (mkResult "" (rr_MX <$> [mkMX 20 "backup.example.com.";
                                   mkMX 10 "mail.example.com."])), None)
  ∧ fst (LookupMX u_mx "example.com" [])
    = Returns ([mkMX 20 "backup.example.com."; mkMX 10 "mail.example.com."],
               None).
Proof.
  split; [reflexivity|].
  apply (LookupMX_keeps_response_order u_mx "example.com" [] ""
           [mkMX 20 "backup.example.com."; mkMX 10 "mail.example.com."]).
  reflexivity.
Defined.

(** X4. LookupMX, LookupTXT, LookupSRV and LookupAddr panic whenever the
    resolver reports no error and the result is nil or holds a record that
    is not of the type asserted (for LookupAddr, when the address has a
    reverse form). *)
Theorem lookups_panic_on_ill_typed_answer ReverseAddr u :
  (∀ name log,
     ¬ answer_typed as_MX (u name TypeMX ClassINET) →
     fst (LookupMX u name log) = Panics)
  ∧ (∀ name log,
       ¬ answer_typed as_TXT (u name TypeTXT ClassINET) →
       fst (LookupTXT u name log) = Panics)
  ∧ (∀ service proto name log,
       ¬ answer_typed as_SRV
           (u (srvName service proto name) TypeSRV ClassINET) →
       fst (LookupSRV u service proto name log) = Panics)
  ∧ (∀ addr log,
       snd (ReverseAddr addr) = None →
       ¬ answer_typed as_PTR (u (fst (ReverseAddr addr)) TypePTR ClassINET) →
       fst (LookupAddr ReverseAddr u addr log) = Panics).
Proof.
  split; [|split; [|split]].
  - intros name log. unfold LookupMX, bind, Resolve, lift, ret.
    destruct (u name TypeMX ClassINET) as [[res|] [e|]]; simpl;
      try (by intros []); [|done].
    intros Hn. apply (range_append_one_Panics as_MX _ []) in Hn.
    by rewrite Hn.
  - intros name log. unfold LookupTXT, bind, Resolve, lift, ret.
    destruct (u name TypeTXT ClassINET) as [[res|] [e|]]; simpl;
      try (by intros []); [|done].
    intros Hn. apply (range_append_Panics as_TXT _ []) in Hn.
    by rewrite Hn.
  - intros service proto name log. rewrite LookupSRV_eq. simpl.
    destruct (u (srvName service proto name) TypeSRV ClassINET)
      as [[res|] [e|]]; simpl; try (by intros []); [|done].
    intros Hn. apply (range_append_one_Panics as_SRV _ []) in Hn.
    by rewrite Hn.
  - intros addr log. unfold LookupAddr.
    destruct (ReverseAddr addr) as [reverse [e|]]; simpl; [done|].
    intros _. unfold bind, Resolve, lift, ret.
    destruct (u reverse TypePTR ClassINET) as [[res|] [e|]]; simpl;
      try (by intros []); [|done].
    intros Hn. apply (range_append_one_Panics as_PTR _ []) in Hn.
    by rewrite Hn.
Qed.

Lemma lookups_panic_on_ill_typed_answer_witness :
  ¬ answer_typed as_MX (u_cname_chain "example.com" TypeMX ClassINET)
  ∧ fst (LookupMX u_cname_chain "example.com" []) = Panics
  ∧ fst (LookupTXT u_cname_chain "example.com" []) = Panics
  ∧ fst (LookupSRV u_cname_chain "ldap" "tcp" "example.com" []) = Panics
  ∧ fst (LookupAddr reverse_sample u_cname_chain "192.0.2.1" []) = Panics.
Proof.
  assert (∀ T (f : RR → outcome T) name t c,
            f (rr_CNAME "www.example.net.") = Panics →
            ¬ answer_typed f (u_cname_chain name t c)) as Hill.
  { intros T f name t c Hf Hty. simpl in Hty.
    inversion Hty as [|? ? [x Hx] _]. congruence. }
  destruct (lookups_panic_on_ill_typed_answer reverse_sample u_cname_chain)
    as (Hmx & Htxt & Hsrv & Haddr).
  split; [by apply Hill|].
  split; [apply Hmx; by apply Hill|].
  split; [apply Htxt; by apply Hill|].
  split; [apply Hsrv; by apply Hill|].
  apply Haddr; [reflexivity | by apply Hill].
Defined.

(** X5. LookupMX and LookupTXT issue exactly one query, whatever comes of
    it; LookupAddr issues exactly one PTR query for the reverse form of the
    address, and none when the address has no reverse form. *)
Theorem single_query_lookups_issue_one_query ReverseAddr u :
  (∀ name log,
     snd (LookupMX u name log) = (log ++ [mkQuery name TypeMX ClassINET])%list)
  ∧ (∀ name log,
       snd (LookupTXT u name log)
       = (log ++ [mkQuery name TypeTXT ClassINET])%list)
  ∧ (∀ addr log,
       snd (LookupAddr ReverseAddr u addr log)
       = match ReverseAddr addr with
         | (reverse, None) =>
             (log ++ [mkQuery reverse TypePTR ClassINET])%list
         | (_, Some _) => log
         end).
Proof.
  split; [|split].
  - intros name log. unfold LookupMX, bind, Resolve, lift, ret.
    destruct (u name TypeMX ClassINET) as [[res|] [e|]]; simpl; try done.
    by destruct (range_append _ _ _).
  - intros name log. unfold LookupTXT, bind, Resolve, lift, ret.
    destruct (u name TypeTXT ClassINET) as [[res|] [e|]]; simpl; try done.
    by destruct (range_append _ _ _).
  - intros addr log. unfold LookupAddr.
    destruct (ReverseAddr addr) as [reverse [e|]]; [done|].
    unfold bind, Resolve, lift, ret.
    destruct (u reverse TypePTR ClassINET) as [[res|] [e|]]; simpl; try done.
    by destruct (range_append _ _ _).
Qed.

(** X6. A response whose SRV records are already in ascending order of
    priority is returned by LookupSRV unchanged: the loops exchange
    nothing, and records of equal priority keep their places. *)
Theorem LookupSRV_keeps_sorted_response u service proto name log cn records :
  u (srvName service proto name) TypeSRV ClassINET
  = (Some (mkResult cn (rr_SRV <$> records)), None) →
  StronglySorted prio_le records →
  fst (LookupSRV u service proto name log) = Returns ("", records, None).
Proof.
  intros Hu Hsorted. rewrite LookupSRV_eq, Hu. unfold SRV_answer. simpl.
  rewrite (range_append_one_fmap as_SRV rr_SRV) by done. simpl.
  by rewrite sortByPriority_sorted.
Qed.

Lemma LookupSRV_keeps_sorted_response_witness :
  u_srv_sorted (srvName "ldap" "tcp" "example.com") TypeSRV ClassINET
  = (Some (mkResult "" (rr_SRV <$> [srv_c; srv_d; srv_a; srv_b])), None)
  ∧ StronglySorted prio_le [srv_c; srv_d; srv_a; srv_b]
  ∧ fst (LookupSRV u_srv_sorted "ldap" "tcp" "example.com" [])
    = Returns ("", [srv_c; srv_d; srv_a; srv_b], None).
Proof.
  assert (StronglySorted prio_le [srv_c; srv_d; srv_a; srv_b]) as Hs.
  { repeat constructor; unfold prio_le; simpl; lia. }
  split; [reflexivity|]. split; [exact Hs|].
  apply (LookupSRV_keeps_sorted_response u_srv_sorted "ldap" "tcp"
           "example.com" [] "" [srv_c; srv_d; srv_a; srv_b]);
    [reflexivity | exact Hs].
Defined.

(** X7. The order LookupSRV returns depends on the priorities only: when
    the records of a response are changed without touching their
    priorities (other weights, ports or targets), the records come back in
    the same positions, changed in the same way. *)
Theorem LookupSRV_order_by_priority_only
    (f : RR_SRV → RR_SRV) u u' service proto name log log' cn cn' records :
  (∀ r, Priority (f r) = Priority r) →
  u (srvName service proto name) TypeSRV ClassINET
  = (Some (mkResult cn (rr_SRV <$> records)), None) →
  u' (srvName service proto name) TypeSRV ClassINET
  = (Some (mkResult cn' (rr_SRV <$> (f <$> records))), None) →
  ∃ sorted,
    fst (LookupSRV u service proto name log) = Returns ("", sorted, None)
    ∧ fst (LookupSRV u' service proto name log')
      = Returns ("", f <$> sorted, None).
Proof.
  intros Hf Hu Hu'. rewrite !LookupSRV_eq, Hu, Hu'. unfold SRV_answer. simpl.
  rewrite !(range_append_one_fmap as_SRV rr_SRV) by done. simpl.
  rewrite (sortByPriority_fmap f Hf).
  destruct (sortByPriority_spec records) as (sorted & -> & _).
  by exists sorted.
Qed.

Lemma LookupSRV_order_by_priority_only_witness :
  (∀ r, Priority (flat_weight r) = Priority r)
  ∧ u_srv_any (srvName "ldap" "tcp" "example.com") TypeSRV ClassINET
    = (Some (mkResult "" (rr_SRV <$> [srv_a; srv_b; srv_c])), None)
  ∧ u_srv_flat (srvName "ldap" "tcp" "example.com") TypeSRV ClassINET
    = (Some (mkResult "" (rr_SRV <$> (flat_weight <$> [srv_a; srv_b; srv_c]))),
       None)
  ∧ ∃ sorted,
      fst (LookupSRV u_srv_any "ldap" "tcp" "example.com" [])
      = Returns ("", sorted, None)
      ∧ fst (LookupSRV u_srv_flat "ldap" "tcp" "example.com" [])
        = Returns ("", flat_weight <$> sorted, None).
Proof.
  split; [reflexivity|]. split; [reflexivity|]. split; [reflexivity|].
  apply (LookupSRV_order_by_priority_only flat_weight u_srv_any u_srv_flat
           "ldap" "tcp" "example.com" [] [] "" "" [srv_a; srv_b; srv_c]);
    reflexivity.
Defined.

(** X8. The first record LookupSRV returns is the first record of the
    response among those of least priority. *)
Theorem LookupSRV_first_record u service proto name log cn l1 x l2 :
  u (srvName service proto name) TypeSRV ClassINET
  = (Some (mkResult cn (rr_SRV <$> (l1 ++ x :: l2)%list)), None) →
  Forall (λ y, Priority x < Priority y) l1 →
  Forall (λ y, Priority x ≤ Priority y) l2 →
  ∃ rest,
    fst (LookupSRV u service proto name log) = Returns ("", x :: rest, None).
Proof.
  intros Hu H1 H2. rewrite LookupSRV_eq, Hu. unfold SRV_answer. simpl.
  rewrite (range_append_one_fmap as_SRV rr_SRV) by done. simpl.
  destruct (sortByPriority_first l1 x l2 H1 H2) as (rest & ->).
  by exists rest.
Qed.

Lemma LookupSRV_first_record_witness :
  u_srv_min_later (srvName "ldap" "tcp" "example.com") TypeSRV ClassINET
  = (Some (mkResult "" (rr_SRV <$> ([srv_a; srv_b] ++ srv_c :: [srv_d])%list)),
     None)
  ∧ Forall (λ y, Priority srv_c < Priority y) [srv_a; srv_b]
  ∧ Forall (λ y, Priority srv_c ≤ Priority y) [srv_d]
  ∧ ∃ rest,
      fst (LookupSRV u_srv_min_later "ldap" "tcp" "example.com" [])
      = Returns ("", srv_c :: rest, None).
Proof.
  assert (Forall (λ y, Priority srv_c < Priority y) [srv_a; srv_b]) as H1.
  { repeat constructor; simpl; lia. }
  assert (Forall (λ y, Priority srv_c ≤ Priority y) [srv_d]) as H2.
  { repeat constructor; simpl; lia. }
  split; [reflexivity|]. split; [exact H1|]. split; [exact H2|].
  apply (LookupSRV_first_record u_srv_min_later "ldap" "tcp" "example.com"
           [] "" [srv_a; srv_b] srv_c [srv_d]);
    [reflexivity | exact H1 | exact H2].
Defined.

(** X9. Asking for a service and protocol is the same as asking, with both
    left empty, for the name built from them: the same query is issued and
    the same is returned. *)
Theorem LookupSRV_direct_name u service proto name log :
  ¬ (service = "" ∧ proto = "") →
  LookupSRV u "" "" ("_" +:+ service +:+ "._" +:+ proto +:+ "." +:+ name) log
  = LookupSRV u service proto name log.
Proof.
  intros Hne. rewrite !LookupSRV_eq.
  by rewrite srvName_empty, (srvName_service service proto name Hne).
Qed.

Lemma LookupSRV_direct_name_witness :
  ¬ ("ldap" = "" ∧ "tcp" = "")
  ∧ LookupSRV u_srv_abc "" "" ("_" +:+ "ldap" +:+ "._" +:+ "tcp" +:+ "." +:+ "example.com") []
    = LookupSRV u_srv_abc "ldap" "tcp" "example.com" [].
Proof.
  assert (¬ ("ldap" = "" ∧ "tcp" = "")) as Hne by (by intros [? _]).
  split; [exact Hne|].
  apply (LookupSRV_direct_name u_srv_abc "ldap" "tcp" "example.com" [] Hne).
Defined.

(** X10. When the resolver reports an error for the SRV query, LookupSRV
    returns that error with no records and an empty name, whatever records
    came with it, and has issued its one query. *)
Theorem LookupSRV_fails_fast u service proto name log r e :
  u (srvName service proto name) TypeSRV ClassINET = (r, Some e) →
  LookupSRV u service proto name log
  = (Returns ("", [], Some e),
     (log ++ [mkQuery (srvName service proto name) TypeSRV ClassINET])%list).
Proof. intros Hu. by rewrite LookupSRV_eq, Hu. Qed.

Lemma LookupSRV_fails_fast_witness :
  u_fail (srvName "http" "tcp" "example.com") TypeSRV ClassINET
  = (Some (mkResult "" [rr_PTR "host.example.com.";
                        rr_MX (mkMX 10 "mx.example.com.");
                        rr_TXT ["v=spf1"]]),
     Some (ErrMsg "servfail"))
  ∧ LookupSRV u_fail "http" "tcp" "example.com" []
    = (Returns ("", [], Some (ErrMsg "servfail")),
       ([] ++ [mkQuery (srvName "http" "tcp" "example.com")
                 TypeSRV ClassINET])%list).
Proof.
  split; [reflexivity|].
  apply (LookupSRV_fails_fast u_fail "http" "tcp" "example.com" []
           (Some (mkResult "" [rr_PTR "host.example.com.";
                               rr_MX (mkMX 10 "mx.example.com.");
                               rr_TXT ["v=spf1"]]))
           (ErrMsg "servfail")).
  reflexivity.
Defined.

(** X11. Sorting what the sort returned changes nothing. *)
Theorem sortByPriority_idempotent srv :
  ∃ sorted,
    sortByPriority srv = Some sorted ∧ sortByPriority sorted = Some sorted.
Proof.
  destruct (sortByPriority_spec srv) as (sorted & Hrun & _ & Hsorted).
  exists sorted. split; [done|]. by apply sortByPriority_sorted.
Qed.

(** X12. LookupIP never returns an error, and so neither does LookupHost:
    whenever they return, the error is nil. *)
Theorem LookupIP_LookupHost_error_nil IP_String u host sched :
  match LookupIP u host sched with
  | Some (Returns (_, err)) => err = None
  | _ => True
  end
  ∧ match LookupHost IP_String u host sched with
    | Some (Returns (_, err)) => err = None
    | _ => True
    end.
Proof.
  assert (match LookupIP u host sched with
          | Some (Returns (_, err)) => err = None
          | _ => True
          end) as Hip.
  { destruct (LookupIP u host sched) as [[[addrs err]|]|] eqn:Hout; try done.
    apply LookupIP_result in Hout. unfold LookupIP_range in Hout.
    destruct (deref _) as [a|]; simpl in Hout; [|done].
    destruct (range_append _ (Rr a) _) as [l|]; simpl in Hout; [|done].
    destruct (deref _) as [aaaa|]; simpl in Hout; [|done].
    destruct (range_append _ (Rr aaaa) _) as [l'|]; simpl in Hout; [|done].
    by injection Hout as _ ->. }
  split; [done|]. unfold LookupHost.
  destruct (LookupIP u host sched) as [[[addrs err]|]|]; try done.
  by subst err.
Qed.

(** X13. When the resolver reports an error for the A query or for the AAAA
    query, LookupIP and LookupHost return in no execution: they have
    panicked once the threads have come to rest. *)
Theorem LookupIP_panics_when_a_query_fails IP_String u host sched :
  snd (u host TypeA ClassINET) ≠ None
  ∨ snd (u host TypeAAAA ClassINET) ≠ None →
  (LookupIP u host sched = None ∨ LookupIP u host sched = Some Panics)
  ∧ (LookupHost IP_String u host sched = None
     ∨ LookupHost IP_String u host sched = Some Panics)
  ∧ (∀ s, exec u host sched LookupIP_start = Some s → quiescent u host s →
       LookupIP u host sched = Some Panics
       ∧ LookupHost IP_String u host sched = Some Panics).
Proof.
  intros Hfail.
  assert (LookupIP_range (got (u host TypeA ClassINET))
            (got (u host TypeAAAA ClassINET)) = Panics) as Hrange.
  { unfold LookupIP_range.
    destruct (u host TypeA ClassINET) as [ra [ea|]]; [done|].
    destruct (u host TypeAAAA ClassINET) as [raaaa [eaaaa|]];
      [|by destruct Hfail].
    simpl. destruct (deref ra) as [a|]; simpl; [|done].
    by destruct (range_append _ _ _). }
  assert (LookupIP u host sched = None ∨ LookupIP u host sched = Some Panics)
    as Hip.
  { destruct (LookupIP u host sched) as [out|] eqn:Hout; [right | by left].
    by rewrite (LookupIP_result _ _ _ _ Hout), Hrange. }
  split; [done|]. split.
  - unfold LookupHost. destruct Hip as [-> | ->]; [by left | by right].
  - intros s Hex Hq. unfold LookupHost.
    by rewrite (LookupIP_complete u host sched s Hex Hq), Hrange.
Qed.

Lemma LookupIP_panics_when_a_query_fails_witness :
  (snd (u_only_aaaa "example.com" TypeA ClassINET) ≠ None
   ∨ snd (u_only_aaaa "example.com" TypeAAAA ClassINET) ≠ None)
  ∧ (LookupIP u_only_aaaa "example.com" sched_a_fails = None
     ∨ LookupIP u_only_aaaa "example.com" sched_a_fails = Some Panics)
  ∧ (LookupHost ip_text u_only_aaaa "example.com" sched_a_fails = None
     ∨ LookupHost ip_text u_only_aaaa "example.com" sched_a_fails
       = Some Panics)
  ∧ (∀ s, exec u_only_aaaa "example.com" sched_a_fails LookupIP_start = Some s →
       quiescent u_only_aaaa "example.com" s →
       LookupIP u_only_aaaa "example.com" sched_a_fails = Some Panics
       ∧ LookupHost ip_text u_only_aaaa "example.com" sched_a_fails
         = Some Panics).
Proof.
  assert (snd (u_only_aaaa "example.com" TypeA ClassINET) ≠ None
          ∨ snd (u_only_aaaa "example.com" TypeAAAA ClassINET) ≠ None) as Hf.
  { left. simpl. discriminate. }
  split; [exact Hf|].
  apply (LookupIP_panics_when_a_query_fails ip_text u_only_aaaa "example.com"
           sched_a_fails Hf).
Defined.

(** X14. The order in which the two queries complete and the threads run
    does not matter: all executions that run until no thread can step end
    in the same state, with the same value returned by LookupIP. *)
Theorem LookupIP_schedule_independent u host sched1 sched2 s1 s2 :
  exec u host sched1 LookupIP_start = Some s1 → quiescent u host s1 →
  exec u host sched2 LookupIP_start = Some s2 → quiescent u host s2 →
  s1 = s2 ∧ LookupIP u host sched1 = LookupIP u host sched2.
Proof.
  intros Hex1 Hq1 Hex2 Hq2.
  pose proof (exec_inv u host sched1 _ _ (Inv_start u host) Hex1) as HI1.
  pose proof (exec_inv u host sched2 _ _ (Inv_start u host) Hex2) as HI2.
  split.
  - by rewrite (quiescent_state u host s1 HI1 Hq1),
               (quiescent_state u host s2 HI2 Hq2).
  - by rewrite (LookupIP_complete u host sched1 s1 Hex1 Hq1),
               (LookupIP_complete u host sched2 s2 Hex2 Hq2).
Qed.

Lemma LookupIP_schedule_independent_witness :
  exec u_both "example.com" sched_seq LookupIP_start = Some state_both_done
  ∧ quiescent u_both "example.com" state_both_done
  ∧ exec u_both "example.com" sched_aaaa_first LookupIP_start
    = Some state_both_done
  ∧ state_both_done = state_both_done
  ∧ LookupIP u_both "example.com" sched_seq
    = LookupIP u_both "example.com" sched_aaaa_first.
Proof.
  assert (quiescent u_both "example.com" state_both_done) as Hq.
  { intros t. destruct t; reflexivity. }
  split; [reflexivity|]. split; [exact Hq|]. split; [reflexivity|].
  apply (LookupIP_schedule_independent u_both "example.com" sched_seq
           sched_aaaa_first state_both_done state_both_done);
    [reflexivity | exact Hq | reflexivity | exact Hq].
Defined.

(** X15. LookupIP never gets stuck: however far an execution has come, it
    can be continued until no thread can step, and LookupIP has returned
    or panicked by then. *)
Theorem LookupIP_can_always_finish u host sched s :
  exec u host sched LookupIP_start = Some s →
  ∃ sched' s' out,
    exec u host (sched ++ sched') LookupIP_start = Some s'
    ∧ quiescent u host s'
    ∧ LookupIP u host (sched ++ sched') = Some out.
Proof.
  intros Hex.
  pose proof (exec_inv u host sched _ _ (Inv_start u host) Hex) as HI.
  destruct (exec_to_rest u host (S (steps_left s)) s) as (sched' & s' & Hex' & Hq);
    [lia | done |].
  assert (exec u host (sched ++ sched') LookupIP_start = Some s') as Hall.
  { by rewrite exec_app, Hex. }
  exists sched', s'. eexists. split; [done|]. split; [done|].
  by apply (LookupIP_complete u host _ s').
Qed.

Lemma LookupIP_can_always_finish_witness :
  exec u_both "example.com" [TMain; TMain; TAAAA] LookupIP_start
  = Some state_aaaa_waits
  ∧ ∃ sched' s' out,
      exec u_both "example.com" ([TMain; TMain; TAAAA] ++ sched')
        LookupIP_start = Some s'
      ∧ quiescent u_both "example.com" s'
      ∧ LookupIP u_both "example.com" ([TMain; TMain; TAAAA] ++ sched')
        = Some out.
Proof.
  split; [reflexivity|].
  apply (LookupIP_can_always_finish u_both "example.com"
           [TMain; TMain; TAAAA] state_aaaa_waits).
  reflexivity.
Defined.

(** X16. In every execution, a helper whose query succeeded gets past its
    send only when LookupIP has received from its channel, and exactly its
    result has gone through the channel by then; a helper whose query
    failed never sends anything. *)
Theorem lookupHelper_send_waits_for_receive u host sched s :
  exec u host sched LookupIP_start = Some s →
  (snd (u host TypeA ClassINET) = None →
   hA s = HDefer ∨ hA s = HDone →
   phaseA (pc s) = Received
   ∧ delivered (ca s) = [fst (u host TypeA ClassINET)])
  ∧ (snd (u host TypeAAAA ClassINET) = None →
     hAAAA s = HDefer ∨ hAAAA s = HDone →
     phaseAAAA (pc s) = Received
     ∧ delivered (caaaa s) = [fst (u host TypeAAAA ClassINET)])
  ∧ (snd (u host TypeA ClassINET) ≠ None → delivered (ca s) = [])
  ∧ (snd (u host TypeAAAA ClassINET) ≠ None → delivered (caaaa s) = []).
Proof.
  intros Hex.
  destruct (exec_inv u host sched _ _ (Inv_start u host) Hex)
    as (HA & HAAAA & _).
  assert (∀ q ph h c, chan_inv q ph h c →
            (snd q = None → h = HDefer ∨ h = HDone →
             ph = Received ∧ delivered c = [fst q])
            ∧ (snd q ≠ None → delivered c = [])) as Hchan.
  { intros [r [e|]] ph h c; destruct ph, h; simpl; try done;
      intros HI; destruct_and?; simplify_eq/=;
      (split; [intros ? [?|?] | intros ?]); by simplify_eq/=. }
  destruct (Hchan _ _ _ _ HA) as [HA1 HA2].
  destruct (Hchan _ _ _ _ HAAAA) as [HAAAA1 HAAAA2].
  split; [exact HA1|]. split; [exact HAAAA1|]. split; [exact HA2|].
  exact HAAAA2.
Qed.

Lemma lookupHelper_send_waits_for_receive_witness :
  exec u_both "example.com" sched_seq LookupIP_start = Some state_both_done
  ∧ (snd (u_both "example.com" TypeA ClassINET) = None →
     hA state_both_done = HDefer ∨ hA state_both_done = HDone →
     phaseA (pc state_both_done) = Received
     ∧ delivered (ca state_both_done)
       = [fst (u_both "example.com" TypeA ClassINET)])
  ∧ (snd (u_both "example.com" TypeAAAA ClassINET) = None →
     hAAAA state_both_done = HDefer ∨ hAAAA state_both_done = HDone →
     phaseAAAA (pc state_both_done) = Received
     ∧ delivered (caaaa state_both_done)
       = [fst (u_both "example.com" TypeAAAA ClassINET)])
  ∧ (snd (u_both "example.com" TypeA ClassINET) ≠ None →
     delivered (ca state_both_done) = [])
  ∧ (snd (u_both "example.com" TypeAAAA ClassINET) ≠ None →
     delivered (caaaa state_both_done) = []).
Proof.
  split; [reflexivity|].
  apply (lookupHelper_send_waits_for_receive u_both "example.com" sched_seq
           state_both_done).
  reflexivity.
Defined.

(** X17. When one of the two queries is answered, without error, by a nil
    result or by a record that is not of the type asserted (a CNAME record
    in the answer to the A query, say), LookupIP returns in no execution,
    and it has panicked once the threads have come to rest. *)
Theorem LookupIP_panics_on_ill_typed_answer u host :
  ¬ answer_typed as_A (u host TypeA ClassINET)
  ∨ ¬ answer_typed as_AAAA (u host TypeAAAA ClassINET) →
  (∀ sched,
     LookupIP u host sched = None ∨ LookupIP u host sched = Some Panics)
  ∧ (∀ sched s, exec u host sched LookupIP_start = Some s →
       quiescent u host s → LookupIP u host sched = Some Panics).
Proof.
  intros Hill.
  assert (LookupIP_range (got (u host TypeA ClassINET))
            (got (u host TypeAAAA ClassINET)) = Panics) as Hrange.
  { unfold LookupIP_range.
    destruct (u host TypeA ClassINET) as [[a|] [ea|]]; simpl; try done.
    destruct (range_append (one as_A) (Rr a) []) as [addrs|] eqn:Ha;
      simpl; [|done].
    destruct Hill as [Hn|Hn].
    { apply (range_append_one_Panics as_A _ []) in Hn. congruence. }
    destruct (u host TypeAAAA ClassINET) as [[aaaa|] [eaaaa|]]; simpl;
      try done; try (by destruct Hn).
    apply (range_append_one_Panics as_AAAA _ addrs) in Hn. by rewrite Hn. }
  split.
  - intros sched.
    destruct (LookupIP u host sched) as [out|] eqn:Hout; [right | by left].
    by rewrite (LookupIP_result _ _ _ _ Hout), Hrange.
  - intros sched s Hex Hq.
    by rewrite (LookupIP_complete u host sched s Hex Hq), Hrange.
Qed.

Lemma LookupIP_panics_on_ill_typed_answer_witness :
  (¬ answer_typed as_A (u_cname_chain "example.com" TypeA ClassINET)
   ∨ ¬ answer_typed as_AAAA (u_cname_chain "example.com" TypeAAAA ClassINET))
  ∧ LookupIP u_cname_chain "example.com" sched_seq = Some Panics
  ∧ (LookupIP u_cname_chain "example.com" [TMain; TMain; TA] = None
     ∨ LookupIP u_cname_chain "example.com" [TMain; TMain; TA] = Some Panics).
Proof.
  assert (¬ answer_typed as_A (u_cname_chain "example.com" TypeA ClassINET)
          ∨ ¬ answer_typed as_AAAA
                (u_cname_chain "example.com" TypeAAAA ClassINET)) as Hill.
  { left. intros Hty. simpl in Hty.
    inversion Hty as [|? ? [x Hx] _]. discriminate. }
  destruct (LookupIP_panics_on_ill_typed_answer u_cname_chain "example.com"
              Hill) as [Hnever _].
  split; [exact Hill|]. split; [reflexivity|].
  exact (Hnever [TMain; TMain; TA]).
Defined.
